(** * JDBCDriver.js: a shallow embedding of the driver facade, its pool hooks
      and its query executor.

    The JavaScript class is embedded as functions over an explicit [world]:
    the driver object ([this]), the heap cells the code allocates (the
    [cancelObj] of each query and the promises handed around) and the trace
    of calls made on the native layer and on the pool.  Code that can throw
    lives in a state-and-exception monad [M]; what the native layer answers
    is a parameter of the development. *)

From Stdlib Require QArith.
From Stdlib Require Import Ascii.
From stdpp Require Import base option list strings gmap.

Local Open Scope string_scope.
Local Open Scope list_scope.
Local Open Scope Z_scope.

(** ** JavaScript values the driver handles *)

(** A property that holds either [undefined] or a string. *)
Definition jsstring := option string.

(** JavaScript truthiness of such a property: [undefined] and the empty
    string are falsy. *)
Definition truthy (s : jsstring) : bool :=
  match s with
  | Some s => negb (String.eqb s "")
  | None => false
  end.

(** [a || b] on string-or-undefined operands. *)
Definition js_or (a b : jsstring) : jsstring := if truthy a then a else b.

(** A key of an object literal: absent, or present with a value that may be
    [undefined].  The spread [...dbOptions] copies every present key, also
    one whose value is [undefined]. *)
Inductive field (A : Type) :=
| Absent
| Given (v : option A).
Arguments Absent {A}.
Arguments Given {A} v.

(** [{ k: d, ...o }] for one key [k]. *)
Definition spread {A} (d : option A) (o : field A) : option A :=
  match o with
  | Absent => d
  | Given v => v
  end.

(** A mapping of connection properties, in the enumeration order of
    [Object.entries]. *)
Definition Properties := list (string * string).

(** ** Configuration *)

(** The pool options of the source (lines 64-70). *)
Record PoolOptions := {
  min : Z;
  max : Z;
  evictionRunIntervalMillis : Z;
  softIdleTimeoutMillis : Z;
  idleTimeoutMillis : Z;
  testOnBorrow : bool;
  acquireTimeoutMillis : Z
}.

(** [config.poolOptions]: any subset of the pool options. *)
Record PartialPoolOptions := {
  p_min : option Z;
  p_max : option Z;
  p_evictionRunIntervalMillis : option Z;
  p_softIdleTimeoutMillis : option Z;
  p_idleTimeoutMillis : option Z;
  p_testOnBorrow : option bool;
  p_acquireTimeoutMillis : option Z
}.

Definition no_poolOptions : PartialPoolOptions :=
  {| p_min := None; p_max := None; p_evictionRunIntervalMillis := None;
     p_softIdleTimeoutMillis := None; p_idleTimeoutMillis := None;
     p_testOnBorrow := None; p_acquireTimeoutMillis := None |}.

(** The argument of the constructor, [Partial<JDBCDriverConfiguration>]. *)
Record JDBCDriverConfiguration := {
  c_dbType : field string;
  c_url : field string;
  c_drivername : field string;
  c_properties : field Properties;
  c_customClassPath : field string;
  c_prepareConnectionQueries : field (list string);
  c_poolOptions : option PartialPoolOptions
}.

(** [{}], the default of the constructor's parameter. *)
Definition empty_config : JDBCDriverConfiguration :=
  {| c_dbType := Absent; c_url := Absent; c_drivername := Absent;
     c_properties := Absent; c_customClassPath := Absent;
     c_prepareConnectionQueries := Absent; c_poolOptions := None |}.

(** [this.config], the merged configuration (lines 29-35). *)
Record Config := {
  dbType : jsstring;
  url : jsstring;
  drivername : jsstring;
  properties : option Properties;
  customClassPath : jsstring;
  config_prepareConnectionQueries : option (list string)
}.

(** ** Errors *)

(** A truthy value found under [ex.cause].  A native [java.lang.Throwable]
    answers [getMessage()] with a string or with [null] and may have a cause
    of its own; any other value has no [getMessage] method. *)
#[warnings="-register-all"] Inductive Throwable :=
| JavaThrowable (message : option string) (cause : option Throwable)
| NotThrowable.

(** [cause.getMessage] called: [None] when there is no such method,
    otherwise the string or the [null] it returns. *)
Definition getMessage (cause : Throwable) : option (option string) :=
  match cause with
  | JavaThrowable message _ => Some message
  | NotThrowable => None
  end.

(** The end of the chain of causes. *)
Fixpoint root_cause (t : Throwable) : Throwable :=
  match t with
  | JavaThrowable _ (Some cause) => root_cause cause
  | _ => t
  end.

(** [ex_cause] is [None] when [ex.cause] is [undefined] or another falsy
    value. *)

Record exn := {
  ex_name : string;
  ex_message : string;
  ex_cause : option Throwable
}.

(** [new Error(message)] *)
Definition Error (message : string) : exn :=
  {| ex_name := "Error"; ex_message := message; ex_cause := None |}.

Definition TypeError (message : string) : exn :=
  {| ex_name := "TypeError"; ex_message := message; ex_cause := None |}.

(** [String(v)] for a string or [null], as [new Error(v)] applies it to its
    argument. *)
Definition String_of (v : option string) : string := default "null" v.

(** What the pool rejects an [acquire] with when no connection can be handed
    out in time. *)
Definition TimeoutError : exn :=
  {| ex_name := "TimeoutError"; ex_message := "ResourceRequest timed out";
     ex_cause := None |}.

(** ** The type catalog *)

(** A value found under a key of the object [./supported-drivers] exports.
    [call_jdbcUrl] is what calling its [jdbcUrl] property does: return a
    string, or throw, as happens with a [TypeError] when the value has no
    such function. *)
Record DbTypeDescription := {
  driverClass : jsstring;
  call_jdbcUrl : exn + jsstring;
  d_properties : option Properties;
  d_prepareConnectionQueries : option (list string)
}.

(** What [jdbcUrl()] returns, when it returns. *)
Definition jdbcUrl (d : DbTypeDescription) : jsstring :=
  match call_jdbcUrl d with
  | inr u => u
  | inl _ => None
  end.

(** The catalog is a plain object, so a lookup also finds what it inherits
    from [Object.prototype]: functions (an object under [__proto__]), all
    truthy, with none of an entry's properties. *)
Definition prototype_member : DbTypeDescription :=
  {| driverClass := None;
     call_jdbcUrl := inl (TypeError "dbTypeDescription.jdbcUrl is not a function");
     d_properties := None;
     d_prepareConnectionQueries := None |}.

Definition Object_prototype : gmap string DbTypeDescription :=
  list_to_map ((λ k, (k, prototype_member)) <$>
    ["constructor"; "__defineGetter__"; "__defineSetter__"; "hasOwnProperty";
     "__lookupGetter__"; "__lookupSetter__"; "isPrototypeOf";
     "propertyIsEnumerable"; "toString"; "valueOf"; "__proto__";
     "toLocaleString"]).

(** ** [parseInt(s, 10)]

    A string is the sequence of the bytes of its UTF-8 encoding. *)

(** The white space [parseInt] skips: the code points 9 to 13 and 32, then
    U+00A0, U+1680, U+2000 to U+200A, U+2028, U+2029, U+202F, U+205F, U+3000
    and U+FEFF. *)
Definition is_js_space (a : ascii) : bool :=
  let n := nat_of_ascii a in
  (Nat.eqb n 32 || Nat.eqb n 9 || Nat.eqb n 10 || Nat.eqb n 11 ||
   Nat.eqb n 12 || Nat.eqb n 13)%bool.

Definition is_js_space2 (a b : ascii) : bool :=
  (Nat.eqb (nat_of_ascii a) 194 && Nat.eqb (nat_of_ascii b) 160)%bool.

Definition is_js_space3 (a b c : ascii) : bool :=
  let x := nat_of_ascii a in
  let y := nat_of_ascii b in
  let z := nat_of_ascii c in
  (Nat.eqb x 225 && Nat.eqb y 154 && Nat.eqb z 128 ||
   Nat.eqb x 226 && Nat.eqb y 128 &&
     (Nat.leb 128 z && Nat.leb z 138 || Nat.eqb z 168 || Nat.eqb z 169 ||
      Nat.eqb z 175) ||
   Nat.eqb x 226 && Nat.eqb y 129 && Nat.eqb z 159 ||
   Nat.eqb x 227 && Nat.eqb y 128 && Nat.eqb z 128 ||
   Nat.eqb x 239 && Nat.eqb y 187 && Nat.eqb z 191)%bool.

Fixpoint skip_spaces (s : string) : string :=
  match s with
  | String a r =>
      if is_js_space a then skip_spaces r
      else
        match r with
        | String b r' =>
            if is_js_space2 a b then skip_spaces r'
            else
              match r' with
              | String c r'' =>
                  if is_js_space3 a b c then skip_spaces r'' else s
              | EmptyString => s
              end
        | EmptyString => s
        end
  | EmptyString => s
  end.

Definition digit_of (a : ascii) : option Z :=
  let n := nat_of_ascii a in
  if (Nat.leb 48 n && Nat.leb n 57)%bool then Some (Z.of_nat n - 48) else None.

(** The value of the longest prefix of decimal digits, [None] when there is
    no digit. *)
Fixpoint digits (acc : option Z) (s : string) : option Z :=
  match s with
  | String a r =>
      match digit_of a with
      | Some d => digits (Some (10 * default 0 acc + d)) r
      | None => acc
      end
  | EmptyString => acc
  end.

(** The Number for a natural number: itself below 2^53, above that the
    nearest number with 53 significant bits, a tie going to the even one.
    (Beyond the largest double JavaScript has [Infinity]; the only use made
    of the result is as the bound of the pool, where the two behave
    alike.) *)
Definition to_Number (n : Z) : Z :=
  if n <? 2 ^ 53 then n
  else
    let e := Z.log2 n - 52 in
    let q := n / 2 ^ e in
    let r := n mod 2 ^ e in
    let half := 2 ^ (e - 1) in
    if r <? half then q * 2 ^ e
    else if half <? r then (q + 1) * 2 ^ e
    else if Z.even q then q * 2 ^ e
    else (q + 1) * 2 ^ e.

(** [None] stands for [NaN]. *)
Definition parseInt (s : string) : option Z :=
  match skip_spaces s with
  | String "-" r => (λ n, - to_Number n) <$> digits None r
  | String "+" r => to_Number <$> digits None r
  | r => to_Number <$> digits None r
  end.

(** ** The native layer, as the driver sees it *)

(** Connections and statements are the native objects [DriverManager] and
    [createStatement] hand out; each is named by a number. *)
Definition conn := nat.
Definition stmt := nat.

Definition row := list (string * string).

(** A native result set.  [toObjArray] is [None] when the object has no such
    method, otherwise what the method delivers to its callback. *)
Record resultSet := {
  rs_rows : list row;
  toObjArray : option (exn + list row)
}.

(** What [executeStatement] resolves with: the converted rows, or the
    result set itself when it has no [toObjArray]. *)
Inductive queryResult :=
| ObjArray (r : list row)
| RawResultSet (rs : resultSet).

Definition result_rows (r : queryResult) : list row :=
  match r with
  | ObjArray r => r
  | RawResultSet rs => rs_rows rs
  end.

(** A JavaScript number; the driver computes one quotient. *)
Definition number := QArith_base.Q.
Definition js_div (a b : Z) : number :=
  QArith_base.Qdiv (QArith_base.inject_Z a) (QArith_base.inject_Z b).

(** A [java.util.Properties] object. *)
Definition JavaProperties := gmap string string.

(** The promise an [async] function returns for the value its body
    returned. *)
Inductive promised (A : Type) := Promised (v : A).
Arguments Promised {A} v.

(** What a call [statement.cancel(callback)] of the native method does:
    throw, call the callback, with an error or without one, or return
    without ever calling it. *)
Inductive cancel_answer :=
| CancelThrows (e : exn)
| CancelCallsBack (err : option exn)
| CancelReturns.

(** How the promise of a promisified call ends up when it is not rejected. *)
Inductive resolution :=
| Resolves
| StaysPending.

(** Calls made on the native layer and on the pool, oldest first. *)
Inductive event :=
| AddToClasspath (customClassPath : promised jsstring)
| GetConnection (url : jsstring) (props : JavaProperties) (opened : option conn)
| Close (c : conn)
| IsValid (c : conn) (timeout : number)
| CreateStatement (c : conn) (created : option stmt)
| SetQueryTimeout (s : stmt) (seconds : Z)
| ExecuteQuery (s : stmt) (sql : string)
| ToObjArray (s : stmt)
| Cancel (s : stmt)
| PoolAcquire (c : conn)
| PoolRelease (c : conn).

(** The answers of the native layer.  Each may depend on everything that
    happened before; [Some e] and [inl e] are the exception thrown. *)
Record Native := {
  getConnection : list event → jsstring → JavaProperties → option exn;
  isValid : list event → conn → number → exn + bool;
  close : list event → conn → option exn;
  createStatement : list event → conn → option exn;
  setQueryTimeout : list event → stmt → Z → option exn;
  executeQuery : list event → stmt → string → exn + resultSet;
  cancel : list event → stmt → cancel_answer
}.

(** One more than every connection named in the trace so far, so that a new
    connection is a new object. *)
Definition event_conn_bound (e : event) : nat :=
  match e with
  | GetConnection _ _ (Some c) | Close c | IsValid c _
  | CreateStatement c _ | PoolAcquire c | PoolRelease c => S c
  | _ => O
  end.

Definition event_stmt_bound (e : event) : nat :=
  match e with
  | CreateStatement _ (Some s) | SetQueryTimeout s _ | ExecuteQuery s _
  | ToObjArray s | Cancel s => S s
  | _ => O
  end.

Definition fresh_conn (tr : list event) : conn :=
  foldr (λ e n, Nat.max (event_conn_bound e) n) O tr.

Definition fresh_stmt (tr : list event) : stmt :=
  foldr (λ e n, Nat.max (event_stmt_bound e) n) O tr.

(** ** The world *)

(** Modelled from the spec: the connection pool of [generic-pool], which is
    not part of the sources.  Section 4.1: a bounded set of connections,
    idle ones and ones handed out; idle ones leave it when the evictor
    finds them expired ([evict] below). *)
Record Pool := {
  options : PoolOptions;
  idle : list conn;
  borrowed : list conn
}.

(** The driver object [this]. *)
Record JDBCDriver := {
  config : Config;
  jdbcProps : option JavaProperties;
  pool : Pool
}.

Inductive jsoptions :=
| OptionsUndefined
| OptionsArray (a : list string)
| OptionsObject (prepareConnectionQueries : option (list string)).

(** The arguments an [async queryPromised(query, cancelObj, options)] call
    was made with; its body runs when the event loop gets to it. *)
Record job := {
  job_query : string;
  job_cancelObj : option nat;
  job_options : jsoptions
}.

Inductive promiseState :=
| Pending (j : job)
| Following (inner : nat)
| Fulfilled (v : queryResult)
| Rejected (e : exn).

(** A promise object: its state, and its own property [cancel] when one was
    assigned, a closure over the [cancelObj] it names. *)
Record promise := {
  p_state : promiseState;
  p_cancel : option nat
}.

Record world := {
  this : JDBCDriver;
  cancelObjs : list (option stmt);
  promises : list promise;
  trace : list event
}.

Definition set_this (f : JDBCDriver → JDBCDriver) (w : world) : world :=
  {| this := f (this w); cancelObjs := cancelObjs w;
     promises := promises w; trace := trace w |}.

Definition set_pool (f : Pool → Pool) : world → world :=
  set_this (λ d, {| config := config d; jdbcProps := jdbcProps d;
                    pool := f (pool d) |}).

Definition set_jdbcProps (p : JavaProperties) : world → world :=
  set_this (λ d, {| config := config d; jdbcProps := Some p; pool := pool d |}).

Definition set_cancelObjs (f : list (option stmt) → list (option stmt))
    (w : world) : world :=
  {| this := this w; cancelObjs := f (cancelObjs w);
     promises := promises w; trace := trace w |}.

Definition set_promises (f : list promise → list promise) (w : world) : world :=
  {| this := this w; cancelObjs := cancelObjs w;
     promises := f (promises w); trace := trace w |}.

Definition add_event (e : event) (w : world) : world :=
  {| this := this w; cancelObjs := cancelObjs w;
     promises := promises w; trace := trace w ++ [e] |}.

(** ** A monad for code that mutates the world and may throw *)

Definition M (A : Type) : Type := world → (exn + A) * world.

Definition ret {A} (a : A) : M A := λ w, (inr a, w).

Definition throw {A} (e : exn) : M A := λ w, (inl e, w).

Definition bind {A B} (m : M A) (k : A → M B) : M B :=
  λ w, match m w with
       | (inr a, w') => k a w'
       | (inl e, w') => (inl e, w')
       end.

Notation "'let*' x ':=' m 'in' k" := (bind m (λ x, k))
  (at level 10, x name, m at level 100, k at level 200).
Notation "m ';;' k" := (bind m (λ _, k))
  (at level 100, k at level 200, right associativity).

Definition gets {A} (f : world → A) : M A := λ w, (inr (f w), w).

Definition modify (f : world → world) : M unit := λ w, (inr (), f w).

Definition log (e : event) : M unit := modify (add_event e).

(** [try { body } catch (ex) { handler(ex) }] *)
Definition try_catch {A} (body : M A) (handler : exn → M A) : M A :=
  λ w, match body w with
       | (inl ex, w') => handler ex w'
       | ok => ok
       end.

(** [try { body } finally { fin }]: [fin] runs on both exits, and an
    exception it throws replaces the outcome of [body]. *)
Definition try_finally {A} (body : M A) (fin : M unit) : M A :=
  λ w, match body w with
       | (r, w') =>
           match fin w' with
           | (inl e, w'') => (inl e, w'')
           | (inr _, w'') => (r, w'')
           end
       end.

(** ** Scenarios

    Concrete collaborators the properties below are exercised on. *)

(** A catalog with one entry. *)
Definition demo_catalog : gmap string DbTypeDescription :=
  {[ "generic" :=
       {| driverClass := Some "x.Driver"; call_jdbcUrl := inr (Some "db://host");
          d_properties := Some [("user", "cube")];
          d_prepareConnectionQueries := Some ["SET time_zone = '+00:00'"] |} ]}.

(** A formatter that puts the values, quoted, in place of the question
    marks. *)
Fixpoint demo_format (q : string) (vs : list string) : string :=
  match q with
  | EmptyString => EmptyString
  | String a r =>
      if Ascii.eqb a "?" then
        match vs with
        | v :: vs' => "'" ++ v ++ "'" ++ demo_format r vs'
        | [] => String a (demo_format r [])
        end
      else String a (demo_format r vs)
  end.

Definition one_row : resultSet :=
  {| rs_rows := [[("1", "1")]]; toObjArray := None |}.

(** A native layer on which everything succeeds. *)
Definition good_native : Native :=
  {| getConnection := λ _ _ _, None;
     isValid := λ _ _ _, inr true;
     close := λ _ _, None;
     createStatement := λ _ _, None;
     setQueryTimeout := λ _ _ _, None;
     executeQuery := λ _ _ _, inr one_row;
     cancel := λ _ _, CancelReturns |}.

Definition is_release_of (c : conn) (e : event) : bool :=
  match e with
  | PoolRelease c' => Nat.eqb c c'
  | _ => false
  end.

(** A server that drops a session once it has sat idle: a connection that
    went back to the pool no longer answers the liveness probe. *)
Definition stale_native : Native :=
  {| getConnection := λ _ _ _, None;
     isValid := λ tr c _, inr (negb (existsb (is_release_of c) tr));
     close := λ _ _, None;
     createStatement := λ _ _, None;
     setQueryTimeout := λ _ _ _, None;
     executeQuery := λ _ _ _, inr one_row;
     cancel := λ _ _, CancelReturns |}.

Definition syntax_error : exn :=
  {| ex_name := "Error"; ex_message := "Error running instance method";
     ex_cause := Some (JavaThrowable (Some "syntax error") None) |}.

(** A failure whose cause is not a native throwable but a JavaScript error,
    as [new Error(message, { cause })] makes them. *)
Definition wrapped_error : exn :=
  {| ex_name := "Error"; ex_message := "query failed";
     ex_cause := Some NotThrowable |}.

(** A native failure whose cause has a cause of its own. *)
Definition chained_error : exn :=
  {| ex_name := "Error"; ex_message := "Error running instance method";
     ex_cause :=
       Some (JavaThrowable (Some "could not execute statement")
               (Some (JavaThrowable (Some "syntax error") None))) |}.

(** A native layer that refuses every query with [e]. *)
Definition native_failing_with (e : exn) : Native :=
  {| getConnection := λ _ _ _, None;
     isValid := λ _ _ _, inr true;
     close := λ _ _, None;
     createStatement := λ _ _, None;
     setQueryTimeout := λ _ _ _, None;
     executeQuery := λ _ _ _, inl e;
     cancel := λ _ _, CancelReturns |}.

(** A native layer that refuses every query. *)
Definition failing_native : Native :=
  {| getConnection := λ _ _ _, None;
     isValid := λ _ _ _, inr true;
     close := λ _ _, None;
     createStatement := λ _ _, None;
     setQueryTimeout := λ _ _ _, None;
     executeQuery := λ _ _ _, inl syntax_error;
     cancel := λ _ _, CancelReturns |}.

(** A native layer that refuses one statement. *)
Definition picky_native : Native :=
  {| getConnection := λ _ _ _, None;
     isValid := λ _ _ _, inr true;
     close := λ _ _, None;
     createStatement := λ _ _, None;
     setQueryTimeout := λ _ _ _, None;
     executeQuery := λ _ _ sql,
       if String.eqb sql "SET mode = 'none'" then inl syntax_error
       else inr one_row;
     cancel := λ _ _, CancelReturns |}.

(** [{dbType: 'generic', url: 'db://host', drivername: 'x.Driver'}] *)
Definition generic_config : JDBCDriverConfiguration :=
  {| c_dbType := Given (Some "generic"); c_url := Given (Some "db://host");
     c_drivername := Given (Some "x.Driver"); c_properties := Absent;
     c_customClassPath := Absent; c_prepareConnectionQueries := Absent;
     c_poolOptions := None |}.

(** The same with a pool of one connection. *)
Definition single_config : JDBCDriverConfiguration :=
  {| c_dbType := Given (Some "generic"); c_url := Given (Some "db://host");
     c_drivername := Given (Some "x.Driver"); c_properties := Absent;
     c_customClassPath := Absent; c_prepareConnectionQueries := Absent;
     c_poolOptions :=
       Some {| p_min := None; p_max := Some 1;
               p_evictionRunIntervalMillis := None;
               p_softIdleTimeoutMillis := None; p_idleTimeoutMillis := None;
               p_testOnBorrow := None; p_acquireTimeoutMillis := None |} |}.


(** A database type the catalog does not know, and no [properties]. *)
Definition uncatalogued_config : JDBCDriverConfiguration :=
  {| c_dbType := Given (Some "acme"); c_url := Given (Some "jdbc:acme://host");
     c_drivername := Given (Some "com.acme.Driver"); c_properties := Absent;
     c_customClassPath := Absent; c_prepareConnectionQueries := Absent;
     c_poolOptions := None |}.

(** An environment that names the database type and the url. *)
Definition demo_env : gmap string string :=
  {[ "CUBEJS_DB_TYPE" := "generic"; "CUBEJS_JDBC_URL" := "jdbc:env://host" ]}.

(** A configuration that only names the driver. *)
Definition drivername_config : JDBCDriverConfiguration :=
  {| c_dbType := Absent; c_url := Absent;
     c_drivername := Given (Some "explicit.Driver"); c_properties := Absent;
     c_customClassPath := Absent; c_prepareConnectionQueries := Absent;
     c_poolOptions := None |}.

(** A configuration whose [dbType] is given as [undefined] and which turns
    the catalog's preparatory statements off. *)
Definition untyped_config : JDBCDriverConfiguration :=
  {| c_dbType := Given None; c_url := Given (Some "db://host");
     c_drivername := Given (Some "x.Driver"); c_properties := Absent;
     c_customClassPath := Absent;
     c_prepareConnectionQueries := Given (Some []);
     c_poolOptions := None |}.

(** ** The driver *)

Section JDBCDriver.

(** The collaborators the source reaches through [require] and through the
    host: the own properties of the object [./supported-drivers] exports,
    the process environment, [SqlString.format], the native layer and the
    base class's [testConnectionTimeout()]. *)
Variable catalog : gmap string DbTypeDescription.
Variable env : gmap string string.
Variable sqlvalue : Type.
Variable format : string → list sqlvalue → string.
Variable native : Native.
Variable testConnectionTimeout : Z.

(** The pool retries a failed borrow until [acquireTimeoutMillis] elapses;
    time is not modelled, and this is the number of further candidates it
    gets to try. *)
Variable acquireRetries : nat.

(** *** Native calls *)

(** [Java.addToClasspath(customClassPath)], lines 10-13. *)
Definition initClassPath (customClassPath : promised jsstring) : M unit :=
  log (AddToClasspath customClassPath).

(** [DriverManager.getConnection(url, props)] *)
Definition DriverManager_getConnection (u : jsstring) (props : JavaProperties)
    : M conn :=
  λ w, match getConnection native (trace w) u props with
       | Some e => (inl e, add_event (GetConnection u props None) w)
       | None =>
           let c := fresh_conn (trace w) in
           (inr c, add_event (GetConnection u props (Some c)) w)
       end.

(** [connection.isValid(timeout)] *)
Definition connection_isValid (c : conn) (timeout : number) : M bool :=
  λ w, (isValid native (trace w) c timeout, add_event (IsValid c timeout) w).

(** [connection.close()] *)
Definition connection_close (c : conn) : M unit :=
  λ w, match close native (trace w) c with
       | Some e => (inl e, add_event (Close c) w)
       | None => (inr (), add_event (Close c) w)
       end.

(** [conn.createStatement()] *)
Definition connection_createStatement (c : conn) : M stmt :=
  λ w, match createStatement native (trace w) c with
       | Some e => (inl e, add_event (CreateStatement c None) w)
       | None =>
           let s := fresh_stmt (trace w) in
           (inr s, add_event (CreateStatement c (Some s)) w)
       end.

(** [statement.setQueryTimeout(seconds)] *)
Definition statement_setQueryTimeout (s : stmt) (seconds : Z) : M unit :=
  λ w, match setQueryTimeout native (trace w) s seconds with
       | Some e => (inl e, add_event (SetQueryTimeout s seconds) w)
       | None => (inr (), add_event (SetQueryTimeout s seconds) w)
       end.

(** [statement.executeQuery(query)] *)
Definition statement_executeQuery (s : stmt) (sql : string) : M resultSet :=
  λ w, (executeQuery native (trace w) s sql, add_event (ExecuteQuery s sql) w).

(** [promisify(statement.cancel.bind(statement))()]: one call of the native
    [cancel], with the callback of [promisify] as its argument.  The promise
    returned is rejected, [inl], when the call throws or calls back with an
    error, fulfilled when it calls back without one, and is left pending
    when the call just returns. *)
Definition statement_cancel (s : stmt) : M resolution :=
  λ w, (match cancel native (trace w) s with
        | CancelThrows e => inl e
        | CancelCallsBack (Some e) => inl e
        | CancelCallsBack None => inr Resolves
        | CancelReturns => inr StaysPending
        end, add_event (Cancel s) w).

(** *** Static lookups (lines 195-206) *)

(** What [SupportedDrivers[key]] finds: an own property of the catalog, or
    else a member of [Object.prototype]. *)
Definition SupportedDrivers : gmap string DbTypeDescription :=
  catalog ∪ Object_prototype.

(** A property key is a string: [SupportedDrivers[undefined]] reads the key
    ["undefined"]. *)
Definition property_key (k : jsstring) : string := default "undefined" k.

Definition dbTypeDescription (dbType : jsstring) : option DbTypeDescription :=
  SupportedDrivers !! property_key dbType.

(** [dbTypeDescription && dbTypeDescription.f] *)
Definition and_then {A} (d : option DbTypeDescription)
    (f : DbTypeDescription → option A) : option A :=
  match d with
  | Some d => f d
  | None => None
  end.

(** *** The constructor (lines 21-73) *)

(** Line 26: the catalog entry the defaults come from. *)
Definition constructor_dbTypeDescription (cfg : JDBCDriverConfiguration)
    : option DbTypeDescription :=
  dbTypeDescription
    (js_or (spread None (c_dbType cfg)) (env !! "CUBEJS_DB_TYPE")).

(** Line 31, [process.env.CUBEJS_JDBC_URL || dbTypeDescription &&
    dbTypeDescription.jdbcUrl()]: the call is made, and may throw, when the
    environment gives no url, whether or not the argument has one. *)
Definition default_url (cfg : JDBCDriverConfiguration) : exn + jsstring :=
  if truthy (env !! "CUBEJS_JDBC_URL") then inr (env !! "CUBEJS_JDBC_URL")
  else
    match constructor_dbTypeDescription cfg with
    | Some d => call_jdbcUrl d
    | None => inr None
    end.

(** Lines 29-35: [this.config], once line 31 has produced its value. *)
Definition mergedConfig (cfg : JDBCDriverConfiguration) : Config :=
  let d := constructor_dbTypeDescription cfg in
  {| dbType := spread (env !! "CUBEJS_DB_TYPE") (c_dbType cfg);
     url := spread (js_or (env !! "CUBEJS_JDBC_URL") (and_then d jdbcUrl))
                   (c_url cfg);
     drivername :=
       spread (js_or (env !! "CUBEJS_JDBC_DRIVER") (and_then d driverClass))
              (c_drivername cfg);
     properties := spread (and_then d d_properties) (c_properties cfg);
     customClassPath := spread None (c_customClassPath cfg);
     config_prepareConnectionQueries :=
       spread None (c_prepareConnectionQueries cfg) |}.

(** Line 65:
    [process.env.CUBEJS_DB_MAX_POOL && parseInt(process.env.CUBEJS_DB_MAX_POOL, 10) || 8];
    [NaN] and [0] are falsy. *)
Definition defaultMax : Z :=
  match env !! "CUBEJS_DB_MAX_POOL" with
  | Some s =>
      if truthy (Some s) then
        match parseInt s with
        | Some n => if n =? 0 then 8 else n
        | None => 8
        end
      else 8
  | None => 8
  end.

(** Lines 63-72: the literal, then [...poolOptions]. *)
Definition mergedPoolOptions (po : option PartialPoolOptions) : PoolOptions :=
  let po := default no_poolOptions po in
  {| min := default 0 (p_min po);
     max := default defaultMax (p_max po);
     evictionRunIntervalMillis := default 10000 (p_evictionRunIntervalMillis po);
     softIdleTimeoutMillis := default 30000 (p_softIdleTimeoutMillis po);
     idleTimeoutMillis := default 30000 (p_idleTimeoutMillis po);
     testOnBorrow := default true (p_testOnBorrow po);
     acquireTimeoutMillis := default 20000 (p_acquireTimeoutMillis po) |}.

(** Modelled from the spec: [genericPool.createPool(factory, options)].
    Section 4.3: no physical connection is opened yet. *)
Definition createPool (o : PoolOptions) : Pool :=
  {| options := o; idle := []; borrowed := [] |}.

Definition constructor (cfg : JDBCDriverConfiguration) : exn + JDBCDriver :=
  match default_url cfg with
  | inl e => inl e
  | inr _ =>
      let c := mergedConfig cfg in
      if negb (truthy (drivername c)) then
        inl (Error "drivername is required property")
      else if negb (truthy (url c)) then
        inl (Error "url is required property")
      else
        inr {| config := c; jdbcProps := None;
               pool := createPool (mergedPoolOptions (c_poolOptions cfg)) |}
  end.

(** The world right after [new JDBCDriver(cfg)]. *)
Definition initial_world (d : JDBCDriver) : world :=
  {| this := d; cancelObjs := []; promises := []; trace := [] |}.

(** *** Pool hooks (lines 47-62) *)

(** Lines 79-81; the method is [async], so a call returns a promise for
    [this.config.customClassPath]. *)
Definition getCustomClassPath : M (promised jsstring) :=
  gets (λ w, Promised (customClassPath (config (this w)))).

(** Lines 86-94.  [Object.entries(undefined)] throws a [TypeError]. *)
Definition getJdbcProperties : M JavaProperties :=
  let* ps := gets (λ w, properties (config (this w))) in
  match ps with
  | Some entries =>
      ret (foldl (λ (p : JavaProperties) '(name, value), <[name:=value]> p)
                 ∅ entries)
  | None => throw (TypeError "Cannot convert undefined or null to object")
  end.

Definition create : M conn :=
  let* cp := getCustomClassPath in
  initClassPath cp ;;
  let* jp := gets (λ w, jdbcProps (this w)) in
  let* props :=
    match jp with
    | Some p => ret p
    | None =>
        let* p := getJdbcProperties in
        modify (set_jdbcProps p) ;;
        ret p
    end in
  let* u := gets (λ w, url (config (this w))) in
  DriverManager_getConnection u props.

Definition destroy (connection : conn) : M unit :=
  connection_close connection.

Definition validate (connection : conn) : M bool :=
  try_catch
    (connection_isValid connection (js_div testConnectionTimeout 1000))
    (λ _, ret false).

(** *** The pool *)

Definition set_idle (l : list conn) (p : Pool) : Pool :=
  {| options := options p; idle := l; borrowed := borrowed p |}.

Definition set_borrowed (l : list conn) (p : Pool) : Pool :=
  {| options := options p; idle := idle p; borrowed := l |}.

(** Modelled from the spec: the next connection [pool.acquire()] considers.
    Section 4.1: an idle connection if there is one; otherwise the [create]
    hook, on demand and up to [max], whose failure is surfaced to the caller
    of [acquire]; with all permitted connections in use the caller waits,
    and a caller nobody releases to fails with a timeout. *)
Definition take_candidate : M conn :=
  let* p := gets (λ w, pool (this w)) in
  match idle p with
  | c :: rest => modify (set_pool (set_idle rest)) ;; ret c
  | [] =>
      if Z.of_nat (length (borrowed p)) <? max (options p)
      then create
      else throw TimeoutError
  end.

(** Modelled from the spec: the pool discards the connections [cs], calling
    the [destroy] hook on each; failures of [destroy] are swallowed. *)
Fixpoint destroy_all (cs : list conn) : M unit :=
  match cs with
  | [] => ret ()
  | c :: cs => try_catch (destroy c) (λ _, ret ()) ;; destroy_all cs
  end.

(** Modelled from the spec: one run of the pool's evictor.  Section 4.1:
    idle connections older than the idle timeouts (lines 66-68) are
    destroyed on a periodic timer.  Time is not modelled: [expired] tells
    which connections have sat idle for too long when the timer fires. *)
Definition evict (expired : conn → bool) : M unit :=
  let* p := gets (λ w, pool (this w)) in
  modify (set_pool (set_idle (filter (λ c, negb (expired c)) (idle p)))) ;;
  destroy_all (filter (λ c, expired c) (idle p)).

(** Modelled from the spec: the pool hands [c] to the caller. *)
Definition lend (c : conn) : M conn :=
  modify (set_pool (λ p, set_borrowed (borrowed p ++ [c]) p)) ;;
  log (PoolAcquire c) ;;
  ret c.

(** Modelled from the spec: [pool.acquire()].  Section 4.1: [testOnBorrow]
    forces a [validate] call before every [acquire] returns a connection; a
    connection that fails it is destroyed, failures of [destroy] being
    swallowed, and another one is supplied instead. *)
Fixpoint dispense (retries : nat) : M conn :=
  let* c := take_candidate in
  let* test := gets (λ w, testOnBorrow (options (pool (this w)))) in
  if (test : bool) then
    let* ok := validate c in
    if (ok : bool) then lend c
    else
      try_catch (destroy c) (λ _, ret ()) ;;
      match retries with
      | O => throw TimeoutError
      | S r => dispense r
      end
  else lend c.

Definition pool_acquire : M conn := dispense acquireRetries.

(** Modelled from the spec: [pool.release(conn)].  Section 4.1: returns the
    connection to the idle set, and never throws for a connection that is
    out on loan. *)
Definition pool_release (c : conn) : M unit :=
  log (PoolRelease c) ;;
  let* p := gets (λ w, pool (this w)) in
  if bool_decide (c ∈ borrowed p) then
    modify (set_pool (λ p,
      {| options := options p; idle := idle p ++ [c];
         borrowed := filter (λ x, x ≠ c) (borrowed p) |}))
  else throw (Error "Resource not currently part of this pool").

(** *** The query executor (lines 168-180) *)

(** Lines 175-179: [resultSet.toObjArray && promisify(...) || (() =>
    Promise.resolve(resultSet))], called. *)
Definition toObjArrayAsync (statement : stmt) (rs : resultSet) : M queryResult :=
  match toObjArray rs with
  | Some outcome =>
      log (ToObjArray statement) ;;
      match outcome with
      | inl e => throw e
      | inr r => ret (ObjArray r)
      end
  | None => ret (RawResultSet rs)
  end.

Definition executeStatement (c : conn) (query : string) (cancelObj : option nat)
    : M queryResult :=
  let* statement := connection_createStatement c in
  match cancelObj with
  | Some co => modify (set_cancelObjs (<[co:=Some statement]>))
  | None => ret ()
  end ;;
  statement_setQueryTimeout statement 600 ;;
  let* rs := statement_executeQuery statement query in
  toObjArrayAsync statement rs.

(** *** [queryPromised] (lines 143-163) *)

(** Lines 144 and 148: [(options || {}).prepareConnectionQueries || []].
    An array has no property of that name. *)
Definition options_prepareConnectionQueries (o : jsoptions) : list string :=
  match o with
  | OptionsObject (Some l) => l
  | _ => []
  end.

(** Lines 149-151. *)
Fixpoint prepare (c : conn) (qs : list string) : M unit :=
  match qs with
  | [] => ret ()
  | q :: qs => executeStatement c q None ;; prepare c qs
  end.

(** Lines 148-152, the guarded block. *)
Definition statements (c : conn) (query : string) (cancelObj : option nat)
    (o : jsoptions) : M queryResult :=
  prepare c (options_prepareConnectionQueries o) ;;
  executeStatement c query cancelObj.

(** Lines 156-162.  Calling [ex.cause.getMessage] when the cause has no
    such method throws a [TypeError]. *)
Definition rethrow (ex : exn) : M queryResult :=
  match ex_cause ex with
  | Some cause =>
      match getMessage cause with
      | Some message => throw (Error (String_of message))
      | None => throw (TypeError "ex.cause.getMessage is not a function")
      end
  | None => throw ex
  end.

Definition queryPromised (query : string) (cancelObj : option nat)
    (o : jsoptions) : M queryResult :=
  try_catch
    (let* c := pool_acquire in
     try_finally (statements c query cancelObj o) (pool_release c))
    rethrow.

(** Lines 130-138. *)
Definition withConnection {A} (fn : conn → M A) : M A :=
  let* c := pool_acquire in
  try_finally (fn c) (pool_release c).

(** *** [query] (lines 118-125) and promises *)

Definition applyParams (query : string) (params : list sqlvalue) : string :=
  format query params.

(** Lines 107-112. *)
Definition prepareConnectionQueries : M (list string) :=
  gets (λ w,
    let cfg := config (this w) in
    let d := dbTypeDescription (dbType cfg) in
    match config_prepareConnectionQueries cfg with
    | Some l => l
    | None => default [] (and_then d d_prepareConnectionQueries)
    end).

(** [{}] *)
Definition new_cancelObj : M nat :=
  λ w, (inr (length (cancelObjs w)), set_cancelObjs (λ l, l ++ [None]) w).

Definition new_promise (p : promise) : M nat :=
  λ w, (inr (length (promises w)), set_promises (λ l, l ++ [p]) w).

(** The call of an [async] function whose body starts by awaiting: the
    caller gets a pending promise and the body runs later. *)
Definition async_call (j : job) : M nat :=
  new_promise {| p_state := Pending j; p_cancel := None |}.

(** [return v] in an [async] function, [v] a promise: the caller holds the
    function's own promise, a new object that follows [v]. *)
Definition async_return (v : nat) : M nat :=
  new_promise {| p_state := Following v; p_cancel := None |}.

(** [promise.cancel = () => ...], the closure naming [cancelObj]. *)
Definition assign_cancel (p cancelObj : nat) : M unit :=
  modify (set_promises (λ l,
    match l !! p with
    | Some pr => <[p:={| p_state := p_state pr; p_cancel := Some cancelObj |}]> l
    | None => l
    end)).

Definition query (q : string) (values : list sqlvalue) : M nat :=
  let queryWithParams := applyParams q values in
  let* cancelObj := new_cancelObj in
  let* pcq := prepareConnectionQueries in
  let* promise :=
    async_call {| job_query := queryWithParams; job_cancelObj := Some cancelObj;
                  job_options := OptionsArray pcq |} in
  assign_cancel promise cancelObj ;;
  async_return promise.

(** Lines 100-102. *)
Definition testConnection : M nat := query "SELECT 1" [].

(** Line 123, the body of the closure: [cancelObj.cancel &&
    cancelObj.cancel() || Promise.reject(new Error('Statement is not
    ready'))].  The promise it returns is rejected for [inl]. *)
Definition cancel_closure (cancelObj : nat) : M resolution :=
  let* c := gets (λ w, cancelObjs w !! cancelObj) in
  match c with
  | Some (Some statement) => statement_cancel statement
  | _ => throw (Error "Statement is not ready")
  end.

(** A caller's [p.cancel()].  Calling a property that is [undefined] throws
    a [TypeError]. *)
Definition call_cancel (p : nat) : M resolution :=
  let* pr := gets (λ w, promises w !! p) in
  match pr ≫= p_cancel with
  | Some cancelObj => cancel_closure cancelObj
  | None => throw (TypeError "cancel is not a function")
  end.

(** *** The event loop *)

Definition settled (r : exn + queryResult) : promiseState :=
  match r with
  | inl e => Rejected e
  | inr v => Fulfilled v
  end.

Definition set_state (p : nat) (s : promiseState) : world → world :=
  set_promises (λ l,
    match l !! p with
    | Some pr => <[p:={| p_state := s; p_cancel := p_cancel pr |}]> l
    | None => l
    end).

Definition state_of (p : nat) (w : world) : option promiseState :=
  p_state <$> promises w !! p.

(** Runs the body of a pending [queryPromised] call to its end. *)
Definition run_job (p : nat) (w : world) : world :=
  match state_of p w with
  | Some (Pending j) =>
      let '(r, w') :=
        queryPromised (job_query j) (job_cancelObj j) (job_options j) w in
      set_state p (settled r) w'
  | _ => w
  end.

(** Runs what promise [p] waits for; a promise that follows another one
    takes its state once that one has settled. *)
Definition settle (p : nat) (w : world) : world :=
  match state_of p w with
  | Some (Pending _) => run_job p w
  | Some (Following inner) =>
      let w' := run_job inner w in
      match state_of inner w' with
      | Some (Fulfilled v) => set_state p (Fulfilled v) w'
      | Some (Rejected e) => set_state p (Rejected e) w'
      | _ => w'
      end
  | _ => w
  end.

(** [await this.query(q, values)], whatever the outcome. *)
Definition run_query (q : string) (values : list sqlvalue) (w : world) : world :=
  match query q values w with
  | (inr p, w') => settle p w'
  | (inl _, w') => w'
  end.

(** One query after the other, each awaited before the next starts. *)
Definition run_queries (qs : list (string * list sqlvalue)) (w : world) : world :=
  foldl (λ w '(q, values), run_query q values w) w qs.

(** What happens between the construction of the driver and now, as far as
    the pool is concerned: queries, each awaited, and runs of the evictor
    while no query is under way. *)
Inductive step :=
| AwaitQuery (q : string) (values : list sqlvalue)
| EvictorRun (expired : conn → bool).

Definition run_step (w : world) (s : step) : world :=
  match s with
  | AwaitQuery q values => run_query q values w
  | EvictorRun expired => snd (evict expired w)
  end.

Definition run_steps (steps : list step) (w : world) : world :=
  foldl run_step w steps.

(** An evictor run that finds no connection to evict. *)
Definition evicts_nothing (s : step) : Prop :=
  match s with
  | AwaitQuery _ _ => True
  | EvictorRun expired => ∀ c, expired c = false
  end.

(** *** Observations on traces *)

Definition is_opened (e : event) : bool :=
  match e with
  | GetConnection _ _ (Some _) => true
  | _ => false
  end.

(** Physical connections created so far. *)
Definition connections_created (tr : list event) : nat :=
  length (filter is_opened tr).

Definition is_close (e : event) : bool :=
  match e with
  | Close _ => true
  | _ => false
  end.

(** Physical connections the pool has discarded so far. *)
Definition connections_destroyed (tr : list event) : nat :=
  length (filter is_close tr).

(** The SQL strings handed to [executeQuery], in order. *)
Definition executed_sql (tr : list event) : list string :=
  omap (λ e, match e with ExecuteQuery _ sql => Some sql | _ => None end) tr.

Definition stmt_named (s : stmt) (tr : list event) : Prop :=
  Exists (λ e, s < event_stmt_bound e)%nat tr.

(** The worlds a caller can bring about: construct the driver, then start
    queries, let the event loop run them, and call [cancel] on the promises
    received, in any order, the evictor of the pool running in between. *)
Inductive reachable (cfg : JDBCDriverConfiguration) : world → Prop :=
| reach_new d :
    constructor cfg = inr d → reachable cfg (initial_world d)
| reach_query q values w :
    reachable cfg w → reachable cfg (snd (query q values w))
| reach_testConnection w :
    reachable cfg w → reachable cfg (snd (testConnection w))
| reach_settle p w :
    reachable cfg w → reachable cfg (settle p w)
| reach_cancel p w :
    reachable cfg w → reachable cfg (snd (call_cancel p w))
| reach_evict expired w :
    reachable cfg w → reachable cfg (snd (evict expired w)).

(** A pool of at most one connection, none of them on loan, whose idle
    connections are the connections created and not discarded since. *)
Definition single_idle (w : world) : Prop :=
  borrowed (pool (this w)) = [] ∧
  (length (idle (pool (this w))) ≤ 1)%nat ∧
  connections_created (trace w)
  = (length (idle (pool (this w))) + connections_destroyed (trace w))%nat ∧
  max (options (pool (this w))) = 1.

(** The pool's only connection is in the hands of [acquire]: taken from the
    idle set or just created, and not yet lent. *)
Definition in_hand (w : world) : Prop :=
  borrowed (pool (this w)) = [] ∧ idle (pool (this w)) = [] ∧
  connections_created (trace w) = S (connections_destroyed (trace w)) ∧
  max (options (pool (this w))) = 1.

(** The pool's only connection is on loan. *)
Definition on_loan (c : conn) (w : world) : Prop :=
  borrowed (pool (this w)) = [c] ∧ idle (pool (this w)) = [] ∧
  connections_created (trace w) = S (connections_destroyed (trace w)) ∧
  max (options (pool (this w))) = 1.

(** Calls that reach the native driver for a connection. *)
Definition is_getConnection (e : event) : bool :=
  match e with
  | GetConnection _ _ _ => true
  | _ => false
  end.

(** A driver that holds no connection and has neither built its native
    properties nor been given any to build them from. *)
Definition unconnected (w : world) : Prop :=
  jdbcProps (this w) = None ∧
  properties (config (this w)) = None ∧
  idle (pool (this w)) = [] ∧
  borrowed (pool (this w)) = [].

(** The loop of lines 88-91 on its own: one [put] per entry, in order, on a
    new [Properties] object. *)
Definition put_all (entries : Properties) : JavaProperties :=
  foldl (λ (p : JavaProperties) '(name, value), <[name:=value]> p) ∅ entries.

(** What every call to [DriverManager.getConnection] made so far was given:
    the url and the properties of configuration [c]. *)
Definition connects_as_configured (c : Config) (e : event) : Prop :=
  match e with
  | GetConnection u p _ =>
      u = url c ∧ ∃ entries, properties c = Some entries ∧ p = put_all entries
  | _ => True
  end.

(** A driver whose configuration is [c], whose native properties, once
    built, are those of [c], and which only ever connected with them. *)
Definition configured (c : Config) (w : world) : Prop :=
  config (this w) = c ∧
  (∀ p, jdbcProps (this w) = Some p →
        ∃ entries, properties c = Some entries ∧ p = put_all entries) ∧
  Forall (connects_as_configured c) (trace w).

(** The statements [qs] run on [c] one after the other, without a handle,
    each to a result, and take [w] to [w']. *)
Inductive succeed_in_turn (c : conn) : list string → world → world → Prop :=
| succeed_nil w : succeed_in_turn c [] w w
| succeed_cons q qs v w w1 w2 :
    executeStatement c q None w = (inr v, w1) →
    succeed_in_turn c qs w1 w2 →
    succeed_in_turn c (q :: qs) w w2.

(** The calls the guarded block of [queryPromised] may make on connection
    [c]: statements of [c], a timeout of 600, queries and conversions. *)
Definition statement_call_on (c : conn) (e : event) : Prop :=
  match e with
  | CreateStatement c' _ => c' = c
  | SetQueryTimeout _ seconds => seconds = 600
  | ExecuteQuery _ _ | ToObjArray _ => True
  | _ => False
  end.

(** ** Properties *)

(** *** Reasoning about [M] *)

Ltac unfold_monad :=
  unfold bind, ret, throw, gets, modify, log, try_catch, try_finally in *.

(** Every run of [m] takes a world to one related to it by [R]. *)
Definition respects {A} (R : relation world) (m : M A) : Prop :=
  ∀ w, R w (snd (m w)).

(** Adding event [e] to the trace stays within [R]. *)
Definition quiet (R : relation world) (e : event) : Prop :=
  ∀ w, R w (add_event e w).

(** The observation [f] of the world is the same in both. *)
Definition same {X} (f : world → X) : relation world := λ w w', f w' = f w.

(** The trace has only been added to. *)
Definition grows : relation world := λ w w', trace w `prefix_of` trace w'.

#[local] Instance same_preorder {X} (f : world → X) : PreOrder (same f).
Proof. split; [by intros w|]. unfold same. intros w1 w2 w3 H1 H2. congruence. Qed.

#[local] Instance grows_preorder : PreOrder grows.
Proof.
  split; unfold grows.
  - intros w. reflexivity.
  - intros w1 w2 w3 H1 H2. by etrans.
Qed.

Section respects.
Context (R : relation world) `{!PreOrder R}.

Lemma respects_ret {A} (a : A) : respects R (ret a).
Proof. by intros w. Qed.

Lemma respects_throw {A} e : respects R (@throw A e).
Proof. by intros w. Qed.

Lemma respects_gets {A} (g : world → A) : respects R (gets g).
Proof. by intros w. Qed.

Lemma respects_modify g : (∀ w, R w (g w)) → respects R (modify g).
Proof. intros H w. apply H. Qed.

Lemma respects_log e : quiet R e → respects R (log e).
Proof. intros H w. apply H. Qed.

Lemma respects_bind {A B} (m : M A) (k : A → M B) :
  respects R m → (∀ a, respects R (k a)) → respects R (bind m k).
Proof.
  intros Hm Hk w. unfold bind. specialize (Hm w).
  destruct (m w) as [[e|a] w']; simpl in *; [done|].
  etrans; [done|apply Hk].
Qed.

Lemma respects_try_catch {A} (m : M A) h :
  respects R m → (∀ e, respects R (h e)) → respects R (try_catch m h).
Proof.
  intros Hm Hh w. unfold try_catch. specialize (Hm w).
  destruct (m w) as [[e|a] w']; simpl in *; [|done].
  etrans; [done|apply Hh].
Qed.

Lemma respects_try_finally {A} (m : M A) fin :
  respects R m → respects R fin → respects R (try_finally m fin).
Proof.
  intros Hm Hf w. unfold try_finally. specialize (Hm w).
  destruct (m w) as [r w']; simpl in *.
  specialize (Hf w'). destruct (fin w') as [[e|[]] w'']; simpl in *; by etrans.
Qed.

(** The native calls only add their event to the trace. *)
Lemma respects_getConnection u p :
  (∀ o, quiet R (GetConnection u p o)) →
  respects R (DriverManager_getConnection u p).
Proof.
  intros H w. unfold DriverManager_getConnection.
  destruct (getConnection _ _ _ _); apply H.
Qed.

Lemma respects_isValid c t :
  quiet R (IsValid c t) → respects R (connection_isValid c t).
Proof. intros H w. apply H. Qed.

Lemma respects_close c : quiet R (Close c) → respects R (connection_close c).
Proof.
  intros H w. unfold connection_close. destruct (close _ _ _); apply H.
Qed.

Lemma respects_createStatement c :
  (∀ o, quiet R (CreateStatement c o)) →
  respects R (connection_createStatement c).
Proof.
  intros H w. unfold connection_createStatement.
  destruct (createStatement _ _ _); apply H.
Qed.

Lemma respects_setQueryTimeout s n :
  quiet R (SetQueryTimeout s n) → respects R (statement_setQueryTimeout s n).
Proof.
  intros H w. unfold statement_setQueryTimeout.
  destruct (setQueryTimeout _ _ _ _); apply H.
Qed.

Lemma respects_executeQuery s q :
  quiet R (ExecuteQuery s q) → respects R (statement_executeQuery s q).
Proof. intros H w. apply H. Qed.

Lemma respects_cancel s : quiet R (Cancel s) → respects R (statement_cancel s).
Proof.
  intros H w. unfold statement_cancel. destruct (cancel _ _ _); apply H.
Qed.

End respects.

(** Splits a goal [respects R m] along the structure of [m]. *)
Ltac respects_step :=
  match goal with
  | |- respects _ (bind _ _) => apply respects_bind; [tc_solve| |intros ?]
  | |- respects _ (try_catch _ _) => apply respects_try_catch; [tc_solve| |intros ?]
  | |- respects _ (try_finally _ _) => apply respects_try_finally; [tc_solve| |]
  | |- respects _ (ret _) => apply respects_ret; tc_solve
  | |- respects _ (throw _) => apply respects_throw; tc_solve
  | |- respects _ (gets _) => apply respects_gets; tc_solve
  | |- respects _ (modify _) => apply respects_modify
  | |- respects _ (log _) => apply respects_log
  | |- respects _ (match ?x with _ => _ end) => destruct x
  | |- respects _ (if ?x then _ else _) => destruct x
  end.

Ltac respects_auto := repeat respects_step; eauto.

(** *** What the operations leave alone *)

Definition stmt_event (e : event) : Prop :=
  match e with
  | CreateStatement _ _ | SetQueryTimeout _ _ | ExecuteQuery _ _
  | ToObjArray _ => True
  | _ => False
  end.

(** Relations the query executor stays within: they hold across the events
    of statements and across an assignment to a [cancelObj]. *)
Definition stmt_blind (R : relation world) : Prop :=
  (∀ e, stmt_event e → quiet R e) ∧ (∀ g w, R w (set_cancelObjs g w)).

Definition pool_event (e : event) : Prop :=
  match e with
  | AddToClasspath _ | GetConnection _ _ _ | Close _ | IsValid _ _
  | PoolAcquire _ | PoolRelease _ => True
  | _ => False
  end.

(** Relations the pool and its hooks stay within. *)
Definition pool_blind (R : relation world) : Prop :=
  (∀ e, pool_event e → quiet R e) ∧
  (∀ g w, R w (set_pool g w)) ∧
  (∀ p w, R w (set_jdbcProps p w)).

(** Relations every step of a query stays within. *)
Definition static (R : relation world) : Prop :=
  (∀ e, quiet R e) ∧
  (∀ g w, R w (set_cancelObjs g w)) ∧
  (∀ g w, R w (set_pool g w)) ∧
  (∀ p w, R w (set_jdbcProps p w)).

Lemma static_stmt_blind R : static R → stmt_blind R.
Proof. intros (He & Hc & _). split; [intros e _; apply He|apply Hc]. Qed.

Lemma static_pool_blind R : static R → pool_blind R.
Proof. intros (He & _ & Hp & Hj). split; [intros e _; apply He|done]. Qed.


Lemma static_promises : static (same promises).
Proof. by repeat split. Qed.

Lemma static_grows : static grows.
Proof.
  repeat split; try (intros ? w; unfold grows; simpl; reflexivity).
  intros e w. unfold grows. simpl. by apply prefix_app_r.
Qed.

Lemma stmt_blind_this : stmt_blind (same this).
Proof. by repeat split. Qed.

Lemma created_add_event e w :
  is_opened e = false →
  connections_created (trace (add_event e w)) = connections_created (trace w).
Proof.
  intros He. unfold connections_created. simpl.
  rewrite filter_app, length_app. simpl.
  rewrite filter_cons_False, filter_nil; simpl; [lia|].
  rewrite He. intros [].
Qed.

Lemma executed_add_event e w :
  ¬ stmt_event e →
  executed_sql (trace (add_event e w)) = executed_sql (trace w).
Proof.
  intros He. unfold executed_sql. simpl. rewrite omap_app. simpl.
  destruct e; simpl; by rewrite ?app_nil_r.
Qed.

Lemma pool_blind_executed : pool_blind (same (λ w, executed_sql (trace w))).
Proof.
  split; [|done]. intros e He w. apply executed_add_event.
  destruct e; simpl in *; tauto.
Qed.

Lemma pool_blind_cancelObjs : pool_blind (same cancelObjs).
Proof. by repeat split. Qed.

Lemma stmt_blind_created : stmt_blind (same (λ w, connections_created (trace w))).
Proof.
  split; [|done]. intros e He w. apply created_add_event. by destruct e.
Qed.

Section frames.
Context (R : relation world) `{!PreOrder R}.

Lemma respects_toObjArrayAsync s rs :
  stmt_blind R → respects R (toObjArrayAsync s rs).
Proof.
  intros [He Hc]. unfold toObjArrayAsync. respects_auto; by apply He.
Qed.

Lemma respects_executeStatement c q co :
  stmt_blind R → respects R (executeStatement c q co).
Proof.
  intros Hf. pose proof Hf as [He Hc]. unfold executeStatement.
  respects_auto.
  - apply respects_createStatement. intros o. by apply He.
  - apply respects_setQueryTimeout. by apply He.
  - apply respects_executeQuery. by apply He.
  - by apply respects_toObjArrayAsync.
Qed.

Lemma respects_prepare c qs : stmt_blind R → respects R (prepare c qs).
Proof.
  intros Hf. induction qs as [|q qs IH]; simpl; respects_auto.
  by apply respects_executeStatement.
Qed.

Lemma respects_statements c q co o :
  stmt_blind R → respects R (statements c q co o).
Proof.
  intros Hf. unfold statements. respects_auto.
  - by apply respects_prepare.
  - by apply respects_executeStatement.
Qed.

Lemma respects_validate c :
  (∀ t, quiet R (IsValid c t)) → respects R (validate c).
Proof. intros H. unfold validate. respects_auto. by apply respects_isValid. Qed.

Lemma respects_destroy c : quiet R (Close c) → respects R (destroy c).
Proof. by apply respects_close. Qed.

Lemma respects_create : pool_blind R → respects R create.
Proof.
  intros (He & Hp & Hj). unfold create, getCustomClassPath, initClassPath,
    getJdbcProperties.
  respects_auto; try apply respects_getConnection; try intros ?; by apply He.
Qed.

Lemma respects_take_candidate : pool_blind R → respects R take_candidate.
Proof.
  intros Hf. pose proof Hf as (He & Hp & Hj). unfold take_candidate.
  respects_auto. by apply respects_create.
Qed.

Lemma respects_lend c : pool_blind R → respects R (lend c).
Proof. intros (He & Hp & Hj). unfold lend. respects_auto. by apply He. Qed.

Lemma respects_dispense n : pool_blind R → respects R (dispense n).
Proof.
  intros Hf. pose proof Hf as (He & Hp & Hj).
  induction n as [|n IH]; simpl; respects_auto.
  all: try (by apply respects_take_candidate).
  all: try (by apply respects_lend).
  all: try (apply respects_validate; intros ?; by apply He).
  all: apply respects_destroy; by apply He.
Qed.



Lemma respects_pool_release c : pool_blind R → respects R (pool_release c).
Proof. intros (He & Hp & Hj). unfold pool_release. respects_auto. by apply He. Qed.

Lemma respects_queryPromised_parts q co o :
  pool_blind R → stmt_blind R → respects R (queryPromised q co o).
Proof.
  intros Hp Hs. unfold queryPromised, rethrow, pool_acquire. respects_auto.
  - by apply respects_dispense.
  - by apply respects_statements.
  - by apply respects_pool_release.
Qed.

Lemma respects_queryPromised q co o :
  static R → respects R (queryPromised q co o).
Proof.
  intros Hf. apply respects_queryPromised_parts;
    [by apply static_pool_blind|by apply static_stmt_blind].
Qed.

End frames.

(** *** The heap operations of [query] and of the event loop *)





Lemma call_cancel_this p w : this (snd (call_cancel p w)) = this w.
Proof.
  revert w. change (respects (same this) (call_cancel p)).
  unfold call_cancel, cancel_closure. respects_auto. by apply respects_cancel.
Qed.



Lemma constructor_unfold cfg :
  constructor cfg =
  match default_url cfg with
  | inl e => inl e
  | inr _ =>
      if negb (truthy (drivername (mergedConfig cfg))) then
        inl (Error "drivername is required property")
      else if negb (truthy (url (mergedConfig cfg))) then
        inl (Error "url is required property")
      else
        inr {| config := mergedConfig cfg; jdbcProps := None;
               pool := createPool (mergedPoolOptions (c_poolOptions cfg)) |}
  end.
Proof. done. Qed.



(** Where line 31 produces a value, it is the default that the merged
    configuration uses. *)
Lemma default_url_merged cfg u :
  default_url cfg = inr u →
  u = js_or (env !! "CUBEJS_JDBC_URL")
            (and_then (constructor_dbTypeDescription cfg) jdbcUrl).
Proof.
  unfold default_url, js_or, jdbcUrl.
  destruct (truthy (env !! "CUBEJS_JDBC_URL")); [congruence|].
  destruct (constructor_dbTypeDescription cfg) as [d|]; simpl; [|congruence].
  by intros ->.
Qed.

(** *** The constructor *)


(** C7: in the merged configuration a key given in the constructor's
    argument wins; without it a non-empty environment variable wins over
    the catalog default ([properties] has no environment variable); and the
    catalog entry is the one of the explicit [dbType] when that is given
    and non-empty, otherwise the one of [CUBEJS_DB_TYPE]. *)
Theorem explicit_over_environment_over_catalog (cfg : JDBCDriverConfiguration) :
  let c := mergedConfig cfg in
  let d := constructor_dbTypeDescription cfg in
  ((∀ v, c_url cfg = Given v → url c = v) ∧
   (∀ v, c_drivername cfg = Given v → drivername c = v) ∧
   (∀ v, c_properties cfg = Given v → properties c = v)) ∧
  ((c_url cfg = Absent → truthy (env !! "CUBEJS_JDBC_URL") = true →
      url c = env !! "CUBEJS_JDBC_URL") ∧
   (c_drivername cfg = Absent → truthy (env !! "CUBEJS_JDBC_DRIVER") = true →
      drivername c = env !! "CUBEJS_JDBC_DRIVER")) ∧
  ((c_url cfg = Absent → truthy (env !! "CUBEJS_JDBC_URL") = false →
      url c = and_then d jdbcUrl) ∧
   (c_drivername cfg = Absent → truthy (env !! "CUBEJS_JDBC_DRIVER") = false →
      drivername c = and_then d driverClass) ∧
   (c_properties cfg = Absent → properties c = and_then d d_properties)) ∧
  ((∀ t, c_dbType cfg = Given (Some t) → t ≠ "" → d = SupportedDrivers !! t) ∧
   (c_dbType cfg = Absent ∨ c_dbType cfg = Given None ∨
    c_dbType cfg = Given (Some "") →
      d = dbTypeDescription (env !! "CUBEJS_DB_TYPE"))).
Proof.
  simpl. unfold mergedConfig, constructor_dbTypeDescription. simpl.
  repeat split.
  - by intros v ->.
  - by intros v ->.
  - by intros v ->.
  - intros -> H. simpl. unfold js_or. by rewrite H.
  - intros -> H. simpl. unfold js_or. by rewrite H.
  - intros -> H. simpl. unfold js_or. by rewrite H.
  - intros -> H. simpl. unfold js_or. by rewrite H.
  - by intros ->.
  - intros t -> Ht. simpl. unfold js_or, dbTypeDescription. simpl.
    destruct (String.eqb_spec t ""); done.
  - by intros [-> | [-> | ->]].
Qed.

(** *** The [validate] hook *)

(** C6: whatever the native probe does, [validate] returns normally: the
    probe's boolean when the probe answers, [false] when it throws; the
    probe is called once, with the test-connection timeout divided by
    1000. *)
Theorem validate_never_throws (connection : conn) (w : world) :
  let timeout := js_div testConnectionTimeout 1000 in
  validate connection w =
    (inr (match isValid native (trace w) connection timeout with
          | inr b => b
          | inl _ => false
          end),
     add_event (IsValid connection timeout) w).
Proof.
  simpl. unfold validate, try_catch, connection_isValid.
  by destruct (isValid _ _ _ _).
Qed.

(** *** The query executor *)

Lemma fresh_stmt_bound (tr : list event) :
  Forall (λ e, event_stmt_bound e ≤ fresh_stmt tr)%nat tr.
Proof.
  induction tr as [|e tr IH]; [constructor|].
  unfold fresh_stmt in *. simpl. constructor; [lia|].
  eapply Forall_impl; [exact IH|]. simpl. intros; lia.
Qed.

Lemma fresh_stmt_not_named (tr : list event) : ¬ stmt_named (fresh_stmt tr) tr.
Proof.
  unfold stmt_named. rewrite <- Forall_Exists_neg.
  eapply Forall_impl; [apply fresh_stmt_bound|]. simpl. intros; lia.
Qed.

(** [executeStatement], call by call. *)
Lemma executeStatement_unfold c q co w :
  executeStatement c q co w =
    match createStatement native (trace w) c with
    | Some e => (inl e, add_event (CreateStatement c None) w)
    | None =>
        let s := fresh_stmt (trace w) in
        let w1 := add_event (CreateStatement c (Some s)) w in
        let w2 := match co with
                  | Some co => set_cancelObjs (<[co:=Some s]>) w1
                  | None => w1
                  end in
        match setQueryTimeout native (trace w2) s 600 with
        | Some e => (inl e, add_event (SetQueryTimeout s 600) w2)
        | None =>
            let w3 := add_event (SetQueryTimeout s 600) w2 in
            match executeQuery native (trace w3) s q with
            | inl e => (inl e, add_event (ExecuteQuery s q) w3)
            | inr rs => toObjArrayAsync s rs (add_event (ExecuteQuery s q) w3)
            end
        end
    end.
Proof.
  unfold executeStatement, bind, connection_createStatement,
    statement_setQueryTimeout, statement_executeQuery.
  destruct (createStatement _ _ _); [done|].
  destruct co; simpl; destruct (setQueryTimeout _ _ _ _); try done;
    by destruct (executeQuery _ _ _ _).
Qed.

Lemma toObjArrayAsync_trace s rs w :
  trace (snd (toObjArrayAsync s rs w)) =
    trace w ++ (if toObjArray rs is Some _ then [ToObjArray s] else []).
Proof.
  unfold toObjArrayAsync. destruct (toObjArray rs) as [[e|r]|]; simpl;
    by rewrite ?app_nil_r.
Qed.

(** C9: each execution creates a statement of its own, one no earlier call
    has named, and calls [setQueryTimeout(600)] on it before
    [executeQuery]; the calls made, and the outcome, are the same with and
    without a cancellation handle.  Call by call: when [createStatement]
    throws, that exception is the outcome and nothing else is called;
    otherwise the timeout is set on the new statement, and when that throws
    the query is not run; otherwise [executeQuery] is called on that
    statement with the query, after the timeout was set, and the outcome is
    the exception it throws or the result set it returns, converted when
    the result set offers [toObjArray]. *)
Theorem executeStatement_sets_timeout_first
    (c : conn) (query : string) (cancelObj : option nat) (w : world) :
  let s := fresh_stmt (trace w) in
  let w' := snd (executeStatement c query cancelObj w) in
  let w1 :=
    match cancelObj with
    | Some co =>
        set_cancelObjs (<[co:=Some s]>) (add_event (CreateStatement c (Some s)) w)
    | None => add_event (CreateStatement c (Some s)) w
    end in
  let w2 := add_event (SetQueryTimeout s 600) w1 in
  let w3 := add_event (ExecuteQuery s query) w2 in
  ¬ stmt_named s (trace w) ∧
  executeStatement c query cancelObj w =
    match createStatement native (trace w) c with
    | Some e => (inl e, add_event (CreateStatement c None) w)
    | None =>
        match setQueryTimeout native
                (trace w ++ [CreateStatement c (Some s)]) s 600 with
        | Some e => (inl e, w2)
        | None =>
            match executeQuery native
                    (trace w ++ [CreateStatement c (Some s);
                                 SetQueryTimeout s 600]) s query with
            | inl e => (inl e, w3)
            | inr rs =>
                match toObjArray rs with
                | Some (inl e) => (inl e, add_event (ToObjArray s) w3)
                | Some (inr r) => (inr (ObjArray r), add_event (ToObjArray s) w3)
                | None => (inr (RawResultSet rs), w3)
                end
            end
        end
    end ∧
  (trace w' = trace w ++ [CreateStatement c None] ∨
   ∃ tail,
     trace w' =
       trace w ++ CreateStatement c (Some s) :: SetQueryTimeout s 600 :: tail ∧
     (tail = [] ∨ tail = [ExecuteQuery s query] ∨
      tail = [ExecuteQuery s query; ToObjArray s])) ∧
  trace w' = trace (snd (executeStatement c query None w)) ∧
  fst (executeStatement c query cancelObj w)
  = fst (executeStatement c query None w).
Proof.
  cbv zeta. split; [apply fresh_stmt_not_named|]. split.
  { rewrite executeStatement_unfold.
    destruct (createStatement _ _ _) as [e|]; [done|]. cbv zeta.
    assert (∀ w0 : world,
      trace (match cancelObj with
             | Some co => set_cancelObjs (<[co:=Some (fresh_stmt (trace w))]>) w0
             | None => w0
             end) = trace w0) as Htr by (intros w0; by destruct cancelObj).
    rewrite Htr. cbn [trace add_event].
    destruct (setQueryTimeout _ _ _ _) as [e|]; [done|].
    rewrite Htr. cbn [trace add_event]. rewrite <- app_assoc. cbn [app].
    destruct (executeQuery _ _ _ _) as [e|rs]; [done|].
    unfold toObjArrayAsync. by destruct (toObjArray rs) as [[e|r]|]. }
  rewrite !executeStatement_unfold.
  destruct (createStatement _ _ _) as [e|]; simpl; [by auto|].
  set (s := fresh_stmt (trace w)).
  destruct cancelObj as [co|]; simpl;
    (destruct (setQueryTimeout _ _ _ _) as [e|]; simpl;
     [split; [|done]; right; exists []; split; [by rewrite <- app_assoc|by auto]|]);
    (destruct (executeQuery _ _ _ _) as [e|rs]; simpl;
     [split; [|done]; right; exists [ExecuteQuery s query];
      split; [by rewrite <- !app_assoc|by auto]|]);
    rewrite !toObjArrayAsync_trace; simpl;
    (split; [|split; [done|unfold toObjArrayAsync;
                       by destruct (toObjArray rs) as [[?|?]|]]]);
    right; destruct (toObjArray rs); eexists;
    (split; [by rewrite <- !app_assoc|by auto]).
Qed.

(** *** The pool, call by call *)

Lemma validate_unfold c w :
  validate c w =
    (inr (match isValid native (trace w) c (js_div testConnectionTimeout 1000) with
          | inr b => b
          | inl _ => false
          end),
     add_event (IsValid c (js_div testConnectionTimeout 1000)) w).
Proof.
  unfold validate, try_catch, connection_isValid. by destruct (isValid _ _ _ _).
Qed.

Lemma destroy_swallowed c w :
  try_catch (destroy c) (λ _, ret ()) w = (inr (), add_event (Close c) w).
Proof.
  unfold try_catch, destroy, connection_close. by destruct (close _ _ _).
Qed.

Lemma create_unfold w :
  create w =
    let w1 :=
      add_event (AddToClasspath (Promised (customClassPath (config (this w))))) w in
    match jdbcProps (this w) with
    | Some p => DriverManager_getConnection (url (config (this w))) p w1
    | None =>
        match properties (config (this w)) with
        | Some entries =>
            let p := foldl (λ (p : JavaProperties) '(name, value),
                              <[name:=value]> p) ∅ entries in
            DriverManager_getConnection (url (config (this w))) p
              (set_jdbcProps p w1)
        | None =>
            (inl (TypeError "Cannot convert undefined or null to object"), w1)
        end
    end.
Proof.
  unfold create, getCustomClassPath, initClassPath, getJdbcProperties.
  unfold_monad. simpl.
  destruct (jdbcProps (this w)); simpl.
  - by destruct (DriverManager_getConnection _ _ _) as [[?|?] ?].
  - destruct (properties (config (this w))); simpl; [|done].
    by destruct (DriverManager_getConnection _ _ _) as [[?|?] ?].
Qed.

Lemma take_candidate_unfold w :
  take_candidate w =
    match idle (pool (this w)) with
    | c :: rest => (inr c, set_pool (set_idle rest) w)
    | [] =>
        if Z.of_nat (length (borrowed (pool (this w)))) <? max (options (pool (this w)))
        then create w
        else (inl TimeoutError, w)
    end.
Proof.
  unfold take_candidate. unfold_monad. simpl.
  destruct (idle (pool (this w))); [|done].
  by destruct (_ <? _).
Qed.

Lemma lend_unfold c w :
  lend c w =
    (inr c, add_event (PoolAcquire c)
              (set_pool (λ p, set_borrowed (borrowed p ++ [c]) p) w)).
Proof. done. Qed.

Lemma dispense_unfold n w :
  dispense n w =
    match take_candidate w with
    | (inl e, w1) => (inl e, w1)
    | (inr c, w1) =>
        if testOnBorrow (options (pool (this w1))) then
          let t := js_div testConnectionTimeout 1000 in
          let w2 := add_event (IsValid c t) w1 in
          match isValid native (trace w1) c t with
          | inr true => lend c w2
          | _ =>
              let w3 := add_event (Close c) w2 in
              match n with
              | O => (inl TimeoutError, w3)
              | S r => dispense r w3
              end
          end
        else lend c w1
    end.
Proof.
  destruct n; simpl; unfold bind at 1;
    destruct (take_candidate w) as [[e|c] w1]; try done;
    unfold bind at 1, gets at 1;
    destruct (testOnBorrow _); try done;
    unfold bind at 1; rewrite validate_unfold;
    destruct (isValid _ _ _ _) as [e|[]]; try done;
    unfold bind at 1; by rewrite destroy_swallowed.
Qed.

Lemma pool_release_unfold c w :
  pool_release c w =
    let w1 := add_event (PoolRelease c) w in
    if bool_decide (c ∈ borrowed (pool (this w))) then
      (inr (), set_pool (λ p,
         {| options := options p; idle := idle p ++ [c];
            borrowed := filter (λ x, x ≠ c) (borrowed p) |}) w1)
    else (inl (Error "Resource not currently part of this pool"), w1).
Proof.
  unfold pool_release. unfold_monad. simpl. by case_bool_decide.
Qed.

(** A connection [acquire] returns is on loan, and handing it out is the
    last thing the pool did. *)
Lemma dispense_lends n w c w1 :
  dispense n w = (inr c, w1) →
  c ∈ borrowed (pool (this w1)) ∧
  ∃ tr, trace w1 = tr ++ [PoolAcquire c].
Proof.
  assert (∀ c0 w0, lend c0 w0 = (inr c, w1) →
            c ∈ borrowed (pool (this w1)) ∧ ∃ tr, trace w1 = tr ++ [PoolAcquire c])
    as Hlend.
  { intros c0 w0. rewrite lend_unfold. intros [= <- <-]. simpl.
    split; [set_solver|by eexists]. }
  revert w. induction n as [|n IH]; intros w; rewrite dispense_unfold;
    destruct (take_candidate w) as [[e|c0] w0]; try done;
    destruct (testOnBorrow _); simpl; eauto;
    destruct (isValid _ _ _ _) as [e|[]]; eauto; done.
Qed.

(** Releasing a connection that is on loan does not throw. *)
Lemma pool_release_on_loan c w :
  c ∈ borrowed (pool (this w)) →
  pool_release c w =
    (inr (), set_pool (λ p,
       {| options := options p; idle := idle p ++ [c];
          borrowed := filter (λ x, x ≠ c) (borrowed p) |})
       (add_event (PoolRelease c) w)).
Proof. intros H. rewrite pool_release_unfold. simpl. by rewrite bool_decide_true. Qed.

(** *** [queryPromised], call by call *)

Lemma queryPromised_unfold q co o w :
  queryPromised q co o w =
    match pool_acquire w with
    | (inl ex, w1) => rethrow ex w1
    | (inr c, w1) =>
        let '(r, w2) := statements c q co o w1 in
        match pool_release c w2 with
        | (inl ex, w3) => rethrow ex w3
        | (inr _, w3) =>
            match r with
            | inl ex => rethrow ex w3
            | inr v => (inr v, w3)
            end
        end
    end.
Proof.
  unfold queryPromised, try_catch, try_finally, bind.
  destruct (pool_acquire w) as [[ex|c] w1]; [done|].
  destruct (statements c q co o w1) as [r w2].
  destruct (pool_release c w2) as [[ex|[]] w3]; [done|].
  by destruct r.
Qed.

(** After a successful [acquire], the connection is released whatever the
    statements do, and the outcome is that of the statements, passed
    through the [catch] block. *)
Lemma queryPromised_after_acquire q co o w c w1 :
  pool_acquire w = (inr c, w1) →
  let '(r, w2) := statements c q co o w1 in
  let w3 := set_pool (λ p,
       {| options := options p; idle := idle p ++ [c];
          borrowed := filter (λ x, x ≠ c) (borrowed p) |})
       (add_event (PoolRelease c) w2) in
  queryPromised q co o w =
    match r with
    | inl ex => rethrow ex w3
    | inr v => (inr v, w3)
    end.
Proof.
  intros Hacq. rewrite queryPromised_unfold, Hacq.
  pose proof (respects_statements _ c q co o stmt_blind_this w1) as Hthis.
  destruct (statements c q co o w1) as [r w2]. simpl in Hthis.
  rewrite pool_release_on_loan; [done|].
  unfold same in Hthis. rewrite Hthis.
  by apply dispense_lends in Hacq as [? _].
Qed.

(** *** [query] and the event loop, call by call *)

Lemma lookup_snoc_length {A} (l : list A) x k : (l ++ x :: k) !! length l = Some x.
Proof. by rewrite list_lookup_middle. Qed.

Lemma insert_snoc_length {A} (l : list A) x y k :
  <[length l:=y]> (l ++ x :: k) = l ++ y :: k.
Proof.
  rewrite insert_app_r_alt by lia. by rewrite Nat.sub_diag.
Qed.

(** What [query] leaves behind: a fresh [cancelObj], the promise of the
    [queryPromised] call with [cancel] assigned, and the promise the caller
    receives, which follows it. *)
Lemma query_unfold q values w :
  let co := length (cancelObjs w) in
  let inner := length (promises w) in
  let pcq := match fst (prepareConnectionQueries w) with
             | inr l => l
             | inl _ => []
             end in
  let j := {| job_query := applyParams q values; job_cancelObj := Some co;
              job_options := OptionsArray pcq |} in
  query q values w =
    (inr (S inner),
     {| this := this w; cancelObjs := cancelObjs w ++ [None];
        promises := promises w ++
          [{| p_state := Pending j; p_cancel := Some co |};
           {| p_state := Following inner; p_cancel := None |}];
        trace := trace w |}).
Proof.
  simpl. unfold query, async_call, async_return, assign_cancel, new_cancelObj,
    new_promise, prepareConnectionQueries.
  unfold_monad. unfold set_promises, set_cancelObjs. simpl.
  rewrite lookup_snoc_length, insert_snoc_length. simpl.
  rewrite length_app. simpl. rewrite Nat.add_1_r.
  by rewrite <- app_assoc.
Qed.

(** Awaiting the promise [query] returned runs [queryPromised] once, on the
    world [query] left, and both promises take its outcome. *)
Lemma settle_query q values w :
  let co := length (cancelObjs w) in
  let inner := length (promises w) in
  let w0 := snd (query q values w) in
  let pcq := match fst (prepareConnectionQueries w) with
             | inr l => l
             | inl _ => []
             end in
  let '(r, w') :=
    queryPromised (applyParams q values) (Some co) (OptionsArray pcq) w0 in
  settle (S inner) w0 =
    {| this := this w'; cancelObjs := cancelObjs w';
       promises := promises w ++
         [{| p_state := settled r; p_cancel := Some co |};
          {| p_state := settled r; p_cancel := None |}];
       trace := trace w' |}.
Proof.
  cbv zeta. rewrite query_unfold. cbv zeta. cbn [snd].
  match goal with |- context [queryPromised ?a ?b ?c ?w0] =>
    pose proof (respects_queryPromised _ a b c static_promises w0) as Hp;
    set (w0' := w0) in *
  end.
  unfold settle, state_of.
  replace (promises w0' !! S (length (promises w)))
    with (Some {| p_state := Following (length (promises w)); p_cancel := None |}).
  2:{ subst w0'. simpl. rewrite (lookup_app_r (promises w)) by lia.
      by replace (S (length (promises w)) - length (promises w))%nat with 1%nat by lia. }
  simpl. unfold run_job, state_of.
  replace (promises w0' !! length (promises w))
    with (Some {| p_state := Pending
                    {| job_query := applyParams q values;
                       job_cancelObj := Some (length (cancelObjs w));
                       job_options := OptionsArray
                         match fst (prepareConnectionQueries w) with
                         | inr l => l
                         | inl _ => []
                         end |};
                  p_cancel := Some (length (cancelObjs w)) |}).
  2:{ subst w0'. simpl. by rewrite lookup_snoc_length. }
  simpl.
  destruct (queryPromised _ _ _ w0') as [r w'] eqn:Hq. simpl in Hp.
  unfold same in Hp. subst w0'. simpl in Hp.
  assert (set_state (length (promises w)) (settled r) w'
    = {| this := this w'; cancelObjs := cancelObjs w';
         promises := promises w ++
           [{| p_state := settled r; p_cancel := Some (length (cancelObjs w)) |};
            {| p_state := Following (length (promises w)); p_cancel := None |}];
         trace := trace w' |}) as Hinner.
  { unfold set_state, set_promises.
    by rewrite Hp, lookup_snoc_length, insert_snoc_length. }
  rewrite Hinner. cbn [promises]. rewrite lookup_snoc_length. cbn [fmap option_fmap option_map p_state].
  assert (∀ st, set_state (S (length (promises w))) st
      {| this := this w'; cancelObjs := cancelObjs w';
         promises := promises w ++
           [{| p_state := settled r; p_cancel := Some (length (cancelObjs w)) |};
            {| p_state := Following (length (promises w)); p_cancel := None |}];
         trace := trace w' |}
    = {| this := this w'; cancelObjs := cancelObjs w';
         promises := promises w ++
           [{| p_state := settled r; p_cancel := Some (length (cancelObjs w)) |};
            {| p_state := st; p_cancel := None |}];
         trace := trace w' |}) as Hset.
  { intros st. unfold set_state, set_promises. simpl.
    rewrite (lookup_app_r (promises w)) by lia.
    replace (S (length (promises w)) - length (promises w))%nat with 1%nat by lia.
    simpl. rewrite insert_app_r_alt by lia.
    by replace (S (length (promises w)) - length (promises w))%nat with 1%nat by lia. }
  destruct r as [e|v]; simpl; apply Hset.
Qed.

(** *** Preparatory statements *)

(** What [options.prepareConnectionQueries] is when [options] is the array
    [query] passes: nothing, so the guarded block is the main statement. *)
Lemma statements_array c q co l w :
  statements c q co (OptionsArray l) w = executeStatement c q co w.
Proof. done. Qed.

Lemma executeStatement_executed c q co w :
  let new := executed_sql (trace (snd (executeStatement c q co w))) in
  (new = executed_sql (trace w) ∧ ∃ e, fst (executeStatement c q co w) = inl e) ∨
  new = executed_sql (trace w) ++ [q].
Proof.
  simpl. rewrite executeStatement_unfold.
  destruct (createStatement _ _ _); simpl.
  { left. unfold executed_sql. rewrite omap_app. simpl.
    rewrite app_nil_r. eauto. }
  assert (∀ w', trace w' = trace w →
    trace (match co with
           | Some co => set_cancelObjs (<[co:=Some (fresh_stmt (trace w))]>)
                          (add_event (CreateStatement c (Some (fresh_stmt (trace w)))) w')
           | None => add_event (CreateStatement c (Some (fresh_stmt (trace w)))) w'
           end) = trace w ++ [CreateStatement c (Some (fresh_stmt (trace w)))])
    as Hco by (intros w' Hw'; destruct co; simpl; by rewrite Hw').
  destruct (setQueryTimeout _ _ _ _); simpl.
  { left. rewrite Hco by done. unfold executed_sql. rewrite !omap_app. simpl.
    rewrite !app_nil_r. eauto. }
  right. rewrite Hco by done.
  destruct (executeQuery _ _ _ _) as [e|rs]; simpl.
  - rewrite Hco by done. unfold executed_sql. rewrite !omap_app. simpl.
    by rewrite !app_nil_r.
  - rewrite toObjArrayAsync_trace. simpl. rewrite Hco by done.
    unfold executed_sql. rewrite !omap_app. simpl.
    destruct (toObjArray rs); simpl; by rewrite !app_nil_r.
Qed.

(** With an options object the preparatory statements run in order, ahead
    of anything else, and stop at the first that fails. *)
Lemma prepare_in_order c qs w :
  ∃ k, (k ≤ length qs)%nat ∧
    executed_sql (trace (snd (prepare c qs w)))
    = executed_sql (trace w) ++ take k qs ∧
    (fst (prepare c qs w) = inr () → k = length qs).
Proof.
  revert w. induction qs as [|q qs IH]; intros w; simpl.
  { exists 0%nat. by rewrite app_nil_r. }
  unfold bind.
  pose proof (executeStatement_executed c q None w) as Hx. simpl in Hx.
  destruct (executeStatement c q None w) as [[e|v] w1]; simpl in *.
  - destruct Hx as [[Hx _]|Hx].
    + exists 0%nat. rewrite Hx, app_nil_r. split; [lia|done].
    + exists 1%nat. rewrite Hx. split; [lia|]. by split.
  - destruct Hx as [[_ [e He]]|Hx]; [done|].
    destruct (IH w1) as (k & Hk & Htr & Hok).
    exists (S k). split; [lia|]. split.
    + rewrite Htr, Hx. simpl. by rewrite <- app_assoc.
    + intros H. by rewrite Hok.
Qed.

Lemma statements_fail_fast c q co l e w w1 :
  prepare c l w = (inl e, w1) →
  statements c q co (OptionsObject (Some l)) w = (inl e, w1).
Proof. intros H. unfold statements, bind. simpl. by rewrite H. Qed.

(** The [catch] block, case by case. *)
Lemma rethrow_unfold ex w :
  rethrow ex w =
    (inl (match ex_cause ex with
          | Some (JavaThrowable message _) => Error (String_of message)
          | Some NotThrowable =>
              TypeError "ex.cause.getMessage is not a function"
          | None => ex
          end), w).
Proof. unfold rethrow. by destruct (ex_cause ex) as [[m c|]|]. Qed.

Lemma rethrow_world ex w : snd (rethrow ex w) = w.
Proof. by rewrite rethrow_unfold. Qed.

(** Started through [query], a query hands at most its own statement to
    [executeQuery], whatever [prepareConnectionQueries()] resolved to. *)
Lemma query_runs_main_statement_only q values w :
  let new := executed_sql (trace (run_query q values w)) in
  new = executed_sql (trace w) ∨
  new = executed_sql (trace w) ++ [applyParams q values].
Proof.
  simpl. pose proof (settle_query q values w) as Hs. cbv zeta in Hs.
  unfold run_query. rewrite query_unfold in *. cbv zeta in *. cbn [snd] in Hs.
  match type of Hs with context [queryPromised ?a ?b ?c ?x] =>
    set (w0 := x) in *;
    pose proof (queryPromised_unfold a b c w0) as Hq
  end.
  destruct (queryPromised _ _ _ w0) as [r w'] eqn:Hr. rewrite Hs. simpl.
  assert (executed_sql (trace w0) = executed_sql (trace w)) as H0 by done.
  pose proof (respects_dispense _ acquireRetries pool_blind_executed w0) as Ha.
  unfold same in Ha. fold pool_acquire in Ha.
  destruct (pool_acquire w0) as [[ex|c] w1]; simpl in Ha.
  { left. apply (f_equal snd) in Hq. rewrite rethrow_world in Hq.
    simpl in Hq. subst w'. by rewrite Ha. }
  rewrite statements_array in Hq.
  pose proof (executeStatement_executed c (applyParams q values)
                (Some (length (cancelObjs w))) w1) as Hx. simpl in Hx.
  destruct (executeStatement _ _ _ w1) as [r2 w2]; simpl in Hx.
  pose proof (respects_pool_release _ c pool_blind_executed w2) as Hrel.
  unfold same in Hrel.
  destruct (pool_release c w2) as [[ex|[]] w3]; simpl in Hrel.
  - apply (f_equal snd) in Hq. rewrite rethrow_world in Hq.
    simpl in Hq. subst w'.
    rewrite Hrel. destruct Hx as [[-> _]| ->]; rewrite Ha, ?H0; auto.
  - assert (w' = w3) as ->.
    { apply (f_equal snd) in Hq. destruct r2 as [ex|v]; [|done].
      by rewrite rethrow_world in Hq. }
    rewrite Hrel. destruct Hx as [[-> _]| ->]; rewrite Ha, ?H0; auto.
Qed.

(** *** Error translation *)

(** C3, as the code has it: when a preparatory or the main statement fails
    with [ex] on an acquired connection, [queryPromised] rejects with [new
    Error(ex.cause.getMessage())] if [ex] carries a cause that has a
    [getMessage] method, the message being what that method returns for the
    cause itself, whatever cause that one has in turn, and the string
    ["null"] when it returns [null]; with the [TypeError] of the failed call
    if [ex] carries a cause without that method; and with [ex] itself if it
    carries no cause.  So does the promise [query] returned, once
    awaited. *)
Theorem queryPromised_rethrows_cause :
  (∀ q co o w c w1 ex w2,
     pool_acquire w = (inr c, w1) →
     statements c q co o w1 = (inl ex, w2) →
     ∃ w3, queryPromised q co o w =
       (inl (match ex_cause ex with
             | Some (JavaThrowable message _) => Error (String_of message)
             | Some NotThrowable =>
                 TypeError "ex.cause.getMessage is not a function"
             | None => ex
             end), w3)) ∧
  (∀ q values w c w1 ex w2,
     let w0 := snd (query q values w) in
     let p := S (length (promises w)) in
     fst (query q values w) = inr p ∧
     (pool_acquire w0 = (inr c, w1) →
      executeStatement c (applyParams q values)
        (Some (length (cancelObjs w))) w1 = (inl ex, w2) →
      state_of p (settle p w0) =
        Some (Rejected (match ex_cause ex with
                        | Some (JavaThrowable message _) =>
                            Error (String_of message)
                        | Some NotThrowable =>
                            TypeError "ex.cause.getMessage is not a function"
                        | None => ex
                        end)))).
Proof.
  split.
  - intros q co o w c w1 ex w2 Hacq Hst.
    pose proof (queryPromised_after_acquire q co o w c w1 Hacq) as H.
    rewrite Hst in H. simpl in H. rewrite H, rethrow_unfold. eauto.
  - intros q values w c w1 ex w2.
    pose proof (settle_query q values w) as Hs.
    rewrite query_unfold in *. cbv zeta in *. cbn [fst snd] in *.
    split; [done|].
    intros Hacq Hst.
    match type of Hs with context [queryPromised ?a ?b ?c ?x] =>
      pose proof (queryPromised_after_acquire a b c x _ _ Hacq) as H
    end.
    rewrite statements_array, Hst in H. cbv beta iota zeta in H.
    rewrite H in Hs.
    rewrite rethrow_unfold in Hs. rewrite Hs. unfold state_of. simpl.
    rewrite (lookup_app_r (promises w)) by lia.
    by replace (S (length (promises w)) - length (promises w))%nat with 1%nat by lia.
Qed.

(** *** Cancellation *)

(** The closure assigned at line 123, called while no statement has been
    bound: a rejection, and nothing reaches the native layer. *)
Lemma cancel_closure_not_ready cancelObj w :
  cancelObjs w !! cancelObj = Some None →
  cancel_closure cancelObj w = (inl (Error "Statement is not ready"), w).
Proof. intros H. unfold cancel_closure. unfold_monad. by rewrite H. Qed.

(** The same closure once [executeStatement] has bound the statement: one
    call of the native [cancel], and the promise of [promisify]. *)
Lemma cancel_closure_ready cancelObj s w :
  cancelObjs w !! cancelObj = Some (Some s) →
  cancel_closure cancelObj w = statement_cancel s w.
Proof. intros H. unfold cancel_closure. unfold_monad. by rewrite H. Qed.

(** [executeStatement] binds the statement to [cancelObj] as soon as it is
    created, and nothing later in the execution unbinds it. *)
Lemma executeStatement_binds_cancel c q cancelObj w :
  (cancelObj < length (cancelObjs w))%nat →
  createStatement native (trace w) c = None →
  cancelObjs (snd (executeStatement c q (Some cancelObj) w)) !! cancelObj
  = Some (Some (fresh_stmt (trace w))).
Proof.
  intros Hlt Hc. rewrite executeStatement_unfold, Hc. simpl.
  destruct (setQueryTimeout _ _ _ _); simpl;
    [by apply list_lookup_insert_eq|].
  destruct (executeQuery _ _ _ _) as [e|rs]; simpl;
    [by apply list_lookup_insert_eq|].
  unfold toObjArrayAsync.
  destruct (toObjArray rs) as [[e|r]|]; simpl; by apply list_lookup_insert_eq.
Qed.

(** Statements without a handle leave every [cancelObj] alone. *)
Lemma executeStatement_no_handle c q w :
  cancelObjs (snd (executeStatement c q None w)) = cancelObjs w.
Proof.
  rewrite executeStatement_unfold.
  destruct (createStatement _ _ _); [done|]. simpl.
  destruct (setQueryTimeout _ _ _ _); [done|]. simpl.
  destruct (executeQuery _ _ _ _) as [e|rs]; [done|]. simpl.
  unfold toObjArrayAsync. by destruct (toObjArray rs) as [[e|r]|].
Qed.

(** Nor do the preparatory statements, which run without a handle. *)
Lemma prepare_no_handle c qs w :
  cancelObjs (snd (prepare c qs w)) = cancelObjs w.
Proof.
  revert w. induction qs as [|q qs IH]; intros w; simpl; [done|].
  unfold bind. pose proof (executeStatement_no_handle c q w) as H.
  destruct (executeStatement c q None w) as [[e|v] w1]; simpl in *; [done|].
  by rewrite IH.
Qed.

(** The promise [cancel] was assigned to, the one [query] does not hand
    out: before the pool has delivered a connection, calling its [cancel]
    rejects with "Statement is not ready". *)
Lemma cancel_on_inner_promise_not_ready q values w :
  let w0 := snd (query q values w) in
  call_cancel (length (promises w)) w0
  = (inl (Error "Statement is not ready"), w0).
Proof.
  rewrite query_unfold. cbv zeta. cbn [snd].
  unfold call_cancel. unfold_monad. cbn [promises].
  rewrite lookup_snoc_length. cbn [mbind option_bind p_cancel].
  rewrite cancel_closure_not_ready; [done|].
  simpl. by rewrite lookup_snoc_length.
Qed.

(** And once the query has run with its statement created, calling it makes
    one call of the native [cancel] on that statement, handing it the
    callback of [promisify].  The promise the call returns is rejected when
    the native call throws or calls back with an error, fulfilled when it
    calls back without one, and never settles when the native call returns
    without calling back. *)
Lemma cancel_on_inner_promise_ready q values w c w1 :
  let w0 := snd (query q values w) in
  let w' := settle (S (length (promises w))) w0 in
  let s := fresh_stmt (trace w1) in
  pool_acquire w0 = (inr c, w1) →
  createStatement native (trace w1) c = None →
  call_cancel (length (promises w)) w'
  = (match cancel native (trace w') s with
     | CancelThrows e => inl e
     | CancelCallsBack (Some e) => inl e
     | CancelCallsBack None => inr Resolves
     | CancelReturns => inr StaysPending
     end, add_event (Cancel s) w').
Proof.
  pose proof (settle_query q values w) as Hs.
  rewrite query_unfold in *. cbv zeta in *. cbn [snd] in *.
  intros Hacq Hcreate.
  match type of Hs with context [queryPromised ?a ?b ?c ?x] =>
    pose proof (queryPromised_after_acquire a b c x _ _ Hacq) as H;
    pose proof (respects_dispense _ acquireRetries pool_blind_cancelObjs x) as Hco
  end.
  fold pool_acquire in Hco. rewrite Hacq in Hco. unfold same in Hco.
  cbn [snd cancelObjs] in Hco.
  rewrite statements_array in H.
  pose proof (executeStatement_binds_cancel c (applyParams q values)
                (length (cancelObjs w)) w1) as Hbind.
  destruct (executeStatement _ _ _ w1) as [r2 w2]. cbn [snd] in Hbind.
  cbv beta iota zeta in H.
  assert (cancelObjs w2 !! length (cancelObjs w)
          = Some (Some (fresh_stmt (trace w1)))) as Hcell.
  { apply Hbind; [|done]. rewrite Hco, length_app. simpl. lia. }
  set (w3 := set_pool _ _) in H.
  assert (∃ r, queryPromised (applyParams q values) (Some (length (cancelObjs w)))
                 (OptionsArray match fst (prepareConnectionQueries w) with
                               | inr l => l
                               | inl _ => []
                               end)
                 {| this := this w; cancelObjs := cancelObjs w ++ [None];
                    promises := promises w ++
                      [{| p_state := Pending
                            {| job_query := applyParams q values;
                               job_cancelObj := Some (length (cancelObjs w));
                               job_options := OptionsArray
                                 match fst (prepareConnectionQueries w) with
                                 | inr l => l
                                 | inl _ => []
                                 end |};
                          p_cancel := Some (length (cancelObjs w)) |};
                       {| p_state := Following (length (promises w));
                          p_cancel := None |}];
                    trace := trace w |} = (r, w3)) as [r Hr].
  { rewrite H. destruct r2 as [ex|v]; [|by eexists].
    rewrite rethrow_unfold. by eexists. }
  rewrite Hr in Hs. rewrite Hs.
  unfold call_cancel. unfold_monad. cbn [promises].
  rewrite lookup_snoc_length. cbn [mbind option_bind p_cancel].
  by rewrite (cancel_closure_ready _ (fresh_stmt (trace w1))).
Qed.

(** C1: the value [query] hands its caller is the promise of the [async]
    function itself, a new object that follows the promise [cancel] was
    assigned to.  It has no [cancel] of its own: calling [cancel()] on it
    throws a [TypeError] and reaches neither the rejection "Statement is
    not ready" nor the statement, both before the statement exists and
    after the query has run. *)
Theorem query_returns_promise_without_cancel
    (q : string) (values : list sqlvalue) (w : world) :
  ∃ p inner cancelObj w0,
    query q values w = (inr p, w0) ∧
    promises w0 !! p = Some {| p_state := Following inner; p_cancel := None |} ∧
    (promises w0 !! inner ≫= p_cancel) = Some cancelObj ∧
    cancelObjs w0 !! cancelObj = Some None ∧
    call_cancel p w0 = (inl (TypeError "cancel is not a function"), w0) ∧
    call_cancel p (settle p w0)
    = (inl (TypeError "cancel is not a function"), settle p w0).
Proof.
  pose proof (settle_query q values w) as Hs. cbv zeta in Hs.
  rewrite query_unfold in *. cbv zeta in *. cbn [snd] in Hs.
  eexists _, _, _, _. split; [reflexivity|].
  assert (∀ (l : list promise) x y, (l ++ [x; y]) !! S (length l) = Some y) as Hl.
  { intros l x y. rewrite (lookup_app_r l) by lia.
    by replace (S (length l) - length l)%nat with 1%nat by lia. }
  split; [apply Hl|].
  split; [simpl; by rewrite lookup_snoc_length|].
  split; [simpl; by rewrite lookup_snoc_length|].
  split.
  - unfold call_cancel. unfold_monad. simpl. by rewrite Hl.
  - destruct (queryPromised _ _ _ _) as [r w']. rewrite Hs.
    unfold call_cancel. unfold_monad. simpl. by rewrite Hl.
Qed.

(** *** The connection goes back to the pool *)

Lemma created_snoc tr e :
  connections_created (tr ++ [e])
  = (connections_created tr + if is_opened e then 1 else 0)%nat.
Proof.
  unfold connections_created. rewrite filter_app, length_app. f_equal.
  destruct (is_opened e) eqn:He.
  - rewrite filter_cons_True; [done|]. by rewrite He.
  - rewrite filter_cons_False; [done|]. rewrite He. intros [].
Qed.

Lemma destroyed_snoc tr e :
  connections_destroyed (tr ++ [e])
  = (connections_destroyed tr + if is_close e then 1 else 0)%nat.
Proof.
  unfold connections_destroyed. rewrite filter_app, length_app. f_equal.
  destruct (is_close e) eqn:He.
  - rewrite filter_cons_True; [done|]. by rewrite He.
  - rewrite filter_cons_False; [done|]. rewrite He. intros [].
Qed.

Lemma stmt_blind_destroyed :
  stmt_blind (same (λ w, connections_destroyed (trace w))).
Proof.
  split; [|done]. intros e He w. unfold same. simpl.
  rewrite destroyed_snoc. destruct e; simpl in *; try done; lia.
Qed.

Lemma take_candidate_single w :
  single_idle w →
  match take_candidate w with
  | (inl _, w1) => single_idle w1 ∧
                   connections_destroyed (trace w1) = connections_destroyed (trace w)
  | (inr c, w1) => in_hand w1 ∧
                   connections_destroyed (trace w1) = connections_destroyed (trace w)
  end.
Proof.
  intros (Hb & Hi & Hc & Hmax). rewrite take_candidate_unfold.
  destruct (idle (pool (this w))) as [|c rest] eqn:Hidle.
  - rewrite Hb, Hmax. change (Z.of_nat (length []) <? 1) with true.
    cbv iota. rewrite create_unfold. cbv zeta.
    unfold DriverManager_getConnection.
    destruct (jdbcProps (this w)) as [p|];
      [|destruct (properties (config (this w)))];
      try destruct (getConnection _ _ _ _);
      unfold single_idle, in_hand; cbn [this trace add_event set_jdbcProps set_this pool];
      rewrite ?created_snoc, ?destroyed_snoc, ?Hb, ?Hidle; simpl; rewrite ?Hb, ?Hidle;
      simpl in *; repeat split; try done; lia.
  - assert (rest = []) as -> by (destruct rest; simpl in *; [done|lia]).
    unfold in_hand. simpl in *. repeat split; try done; lia.
Qed.

Lemma lend_single c w : in_hand w → on_loan c (snd (lend c w)).
Proof.
  intros (Hb & Hi & Hc & Hmax). rewrite lend_unfold. unfold on_loan. simpl.
  rewrite created_snoc, destroyed_snoc, Hb, Hi. simpl.
  repeat split; try done; lia.
Qed.

Lemma discard_single c t w :
  in_hand w → single_idle (add_event (Close c) (add_event (IsValid c t) w)).
Proof.
  intros (Hb & Hi & Hc & Hmax). unfold single_idle. simpl.
  rewrite !created_snoc, !destroyed_snoc, Hb, Hi. simpl.
  repeat split; try done; lia.
Qed.

(** With one connection allowed, [acquire] either fails and leaves a pool
    of at most one idle connection, or hands out the only connection there
    is. *)
Lemma dispense_single n w :
  single_idle w →
  match dispense n w with
  | (inl _, w1) => single_idle w1
  | (inr c, w1) => on_loan c w1
  end.
Proof.
  revert w. induction n as [|n IH]; intros w Hw; rewrite dispense_unfold;
    pose proof (take_candidate_single w Hw) as Ht;
    destruct (take_candidate w) as [[e|c] w1]; try (by destruct Ht);
    destruct Ht as [Ht _];
    (destruct (testOnBorrow _); [|by apply (lend_single c w1)]);
    cbv zeta;
    (destruct (isValid _ _ _ _) as [e|[]];
     [|by apply (lend_single c (add_event _ w1));
        destruct Ht as (? & ? & ? & ?); unfold in_hand; simpl;
        rewrite created_snoc, destroyed_snoc; simpl;
        repeat split; try done; lia|]).
  all: try (by apply discard_single).
  all: apply IH; by apply discard_single.
Qed.

(** When every probe answers [true], [acquire] discards no connection. *)
Lemma dispense_keeps n w :
  (∀ tr c t, isValid native tr c t = inr true) →
  single_idle w →
  connections_destroyed (trace (snd (dispense n w)))
  = connections_destroyed (trace w).
Proof.
  intros Hvalid Hw. rewrite dispense_unfold.
  pose proof (take_candidate_single w Hw) as Ht.
  destruct (take_candidate w) as [[e|c] w1]; [by destruct Ht|].
  destruct Ht as [_ Ht]. cbv zeta. rewrite Hvalid, !lend_unfold.
  destruct (testOnBorrow _); simpl; rewrite !destroyed_snoc; simpl; lia.
Qed.

Lemma queryPromised_single q co o w :
  single_idle w →
  single_idle (snd (queryPromised q co o w)) ∧
  ((∀ tr c t, isValid native tr c t = inr true) →
   connections_destroyed (trace (snd (queryPromised q co o w)))
   = connections_destroyed (trace w)).
Proof.
  intros Hw. rewrite queryPromised_unfold.
  pose proof (dispense_single acquireRetries w Hw) as Ha.
  pose proof (dispense_keeps acquireRetries w) as Hk.
  fold pool_acquire in Ha, Hk.
  destruct (pool_acquire w) as [[ex|c] w1]; [rewrite rethrow_world; auto|].
  destruct Ha as (Hb & Hi & Hc & Hmax).
  pose proof (respects_statements _ c q co o stmt_blind_this w1) as Hthis.
  pose proof (respects_statements _ c q co o stmt_blind_created w1) as Hcr.
  pose proof (respects_statements _ c q co o stmt_blind_destroyed w1) as Hde.
  unfold same in *.
  destruct (statements c q co o w1) as [r w2]. simpl in *.
  rewrite pool_release_on_loan by (rewrite Hthis, Hb; set_solver).
  set (w3 := set_pool _ _).
  assert (single_idle w3 ∧
          connections_destroyed (trace w3) = connections_destroyed (trace w1))
    as [Hinv Hd3].
  { subst w3. unfold single_idle. simpl.
    rewrite created_snoc, destroyed_snoc, Hthis, Hb, Hi, Hcr, Hc, Hde.
    simpl. rewrite filter_cons_False by naive_solver.
    repeat split; try done; lia. }
  assert (snd (match r with
               | inl ex => rethrow ex w3
               | inr v => (inr v, w3)
               end) = w3) as ->
    by (destruct r; [by rewrite rethrow_world|done]).
  split; [done|]. intros Hvalid. rewrite Hd3. by apply Hk.
Qed.

Lemma run_query_single q values w :
  single_idle w →
  single_idle (run_query q values w) ∧
  ((∀ tr c t, isValid native tr c t = inr true) →
   connections_destroyed (trace (run_query q values w))
   = connections_destroyed (trace w)).
Proof.
  intros Hw. pose proof (settle_query q values w) as Hs.
  unfold run_query. rewrite query_unfold in *. cbv zeta in *. cbn [snd] in Hs.
  match type of Hs with context [queryPromised ?a ?b ?c ?x] =>
    pose proof (queryPromised_single a b c x) as Hq
  end.
  destruct (queryPromised _ _ _ _) as [r w']. rewrite Hs.
  by apply Hq.
Qed.

(** The connections [destroy_all] is given are closed, one after the
    other, and nothing else happens. *)
Lemma destroy_all_unfold cs w :
  destroy_all cs w =
    (inr (), {| this := this w; cancelObjs := cancelObjs w;
                promises := promises w; trace := trace w ++ (Close <$> cs) |}).
Proof.
  revert w. induction cs as [|c cs IH]; intros w; simpl.
  { unfold ret. rewrite app_nil_r. by destruct w. }
  unfold bind at 1. rewrite destroy_swallowed, IH. simpl.
  by rewrite <- app_assoc.
Qed.

Lemma evict_unfold expired w :
  evict expired w =
    (inr (), {| this := this (set_pool (set_idle
                  (filter (λ c, negb (expired c)) (idle (pool (this w))))) w);
                cancelObjs := cancelObjs w; promises := promises w;
                trace := trace w ++
                  (Close <$> filter (λ c, expired c) (idle (pool (this w)))) |}).
Proof. unfold evict. unfold_monad. by rewrite destroy_all_unfold. Qed.

Lemma evict_single expired w :
  single_idle w →
  single_idle (snd (evict expired w)) ∧
  ((∀ c, expired c = false) →
   connections_destroyed (trace (snd (evict expired w)))
   = connections_destroyed (trace w)).
Proof.
  intros (Hb & Hi & Hc & Hmax). rewrite evict_unfold. unfold single_idle.
  cbn [snd this trace pool set_pool set_this set_idle idle borrowed options].
  destruct (idle (pool (this w))) as [|c [|c' rest]]; simpl in *; try lia.
  { rewrite app_nil_r. auto. }
  destruct (expired c) eqn:He.
  - rewrite filter_cons_False, filter_cons_True
      by (rewrite He; simpl; tauto). rewrite !filter_nil. simpl.
    rewrite created_snoc, destroyed_snoc. simpl.
    split; [repeat split; try done; lia|]. intros H. by rewrite H in He.
  - rewrite filter_cons_True, filter_cons_False
      by (rewrite He; simpl; tauto). rewrite !filter_nil. simpl.
    rewrite app_nil_r. auto.
Qed.

Lemma run_steps_single steps w :
  single_idle w →
  single_idle (run_steps steps w) ∧
  ((∀ tr c t, isValid native tr c t = inr true) →
   Forall evicts_nothing steps →
   connections_destroyed (trace (run_steps steps w))
   = connections_destroyed (trace w)).
Proof.
  revert w. unfold run_steps.
  induction steps as [|[q values|expired] steps IH]; intros w Hw; simpl;
    [done| |].
  - destruct (run_query_single q values w Hw) as [H1 H2].
    destruct (IH _ H1) as [H3 H4]. split; [done|].
    intros Hvalid Hsteps. apply Forall_cons in Hsteps as [_ Hsteps].
    rewrite H4 by done. by apply H2.
  - destruct (evict_single expired w Hw) as [H1 H2].
    destruct (IH _ H1) as [H3 H4]. split; [done|].
    intros Hvalid Hsteps. apply Forall_cons in Hsteps as [He Hsteps].
    rewrite H4 by done. by apply H2.
Qed.

(** C2, as the code has it: after a successful [acquire], [queryPromised]
    invokes [pool.release] on that connection as the last thing it does,
    whether the statements succeed or throw, and the connection is idle
    again.  With [max = 1], whatever queries are run one after the other
    and whenever the evictor of the pool runs in between, a physical
    connection is created only when every earlier one has been discarded,
    by a liveness probe that failed when the connection was borrowed or by
    the evictor; when every probe answers [true] and the evictor finds
    nothing to evict, at most one physical connection is created. *)
Theorem queryPromised_releases_connection :
  (∀ q co o w c w1,
     pool_acquire w = (inr c, w1) →
     ∃ r w3 evs,
       queryPromised q co o w = (r, w3) ∧
       trace w3 = trace w1 ++ evs ++ [PoolRelease c] ∧
       c ∈ idle (pool (this w3)) ∧ c ∉ borrowed (pool (this w3))) ∧
  (∀ cfg d steps,
     constructor cfg = inr d →
     max (options (pool d)) = 1 →
     let tr := trace (run_steps steps (initial_world d)) in
     (connections_created tr ≤ S (connections_destroyed tr))%nat ∧
     ((∀ tr c t, isValid native tr c t = inr true) →
      Forall evicts_nothing steps →
      (connections_created tr ≤ 1)%nat)).
Proof.
  split.
  - intros q co o w c w1 Hacq.
    pose proof (queryPromised_after_acquire q co o w c w1 Hacq) as H.
    pose proof (respects_statements _ c q co o
                  (static_stmt_blind _ static_grows) w1) as Hg.
    destruct (statements c q co o w1) as [r2 w2]. simpl in *.
    destruct Hg as [evs Hevs].
    set (w3 := set_pool _ _) in H.
    exists (fst (queryPromised q co o w)), w3, evs.
    split; [|split; [|split]].
    + rewrite H. destruct r2 as [ex|v]; [|done]. by rewrite rethrow_unfold.
    + subst w3. simpl. by rewrite Hevs, <- app_assoc.
    + subst w3. simpl. set_solver.
    + subst w3. simpl. rewrite list_elem_of_filter. by intros [? _].
  - intros cfg d steps Hd Hmax.
    assert (single_idle (initial_world d)) as Hinit.
    { rewrite constructor_unfold in Hd. repeat case_match; simplify_eq.
      unfold single_idle. simpl in *.
      unfold connections_created, connections_destroyed. simpl.
      repeat split; try done; lia. }
    destruct (run_steps_single steps _ Hinit) as [(_ & Hi & Hc & _) Hk].
    cbv zeta. split; [lia|]. intros Hvalid Hsteps.
    rewrite Hc, Hk by done. simpl.
    unfold connections_destroyed. simpl. lia.
Qed.

(** *** Connection creation without a properties mapping *)

Lemma queryPromised_unconnected q co o w :
  unconnected w →
  queryPromised q co o w =
    if 0 <? max (options (pool (this w))) then
      (inl (TypeError "Cannot convert undefined or null to object"),
       add_event
         (AddToClasspath (Promised (customClassPath (config (this w))))) w)
    else (inl TimeoutError, w).
Proof.
  intros (Hj & Hp & Hi & Hb).
  rewrite queryPromised_unfold. unfold pool_acquire.
  rewrite dispense_unfold, take_candidate_unfold, Hi, Hb.
  cbn [length]. change (Z.of_nat 0) with 0.
  destruct (0 <? max _); [|done].
  by rewrite create_unfold, Hj, Hp.
Qed.

Lemma run_job_unconnected p w :
  unconnected w →
  this (run_job p w) = this w ∧
  ∃ evs, trace (run_job p w) = trace w ++ evs ∧
         Forall (λ e, is_getConnection e = false) evs.
Proof.
  intros Hw. unfold run_job.
  destruct (state_of p w) as [[j| | |]|];
    try (split; [done|]; exists []; by rewrite app_nil_r).
  rewrite queryPromised_unconnected by done.
  destruct (0 <? max _); simpl.
  - split; [done|]. eexists. split; [done|]. by repeat constructor.
  - split; [done|]. exists []. by rewrite app_nil_r.
Qed.

Lemma settle_unconnected p w :
  unconnected w →
  this (settle p w) = this w ∧
  ∃ evs, trace (settle p w) = trace w ++ evs ∧
         Forall (λ e, is_getConnection e = false) evs.
Proof.
  intros Hw. unfold settle.
  destruct (state_of p w) as [[j|i| |]|];
    try (split; [done|]; exists []; by rewrite app_nil_r).
  - by apply run_job_unconnected.
  - destruct (run_job_unconnected i w Hw) as [Ht He].
    by destruct (state_of i (run_job i w)) as [[| | |]|].
Qed.

Lemma call_cancel_trace p w :
  ∃ evs, trace (snd (call_cancel p w)) = trace w ++ evs ∧
         Forall (λ e, is_getConnection e = false) evs.
Proof.
  unfold call_cancel, cancel_closure, statement_cancel. unfold_monad.
  destruct (promises w !! p ≫= p_cancel) as [co|]; simpl;
    [|exists []; by rewrite app_nil_r].
  destruct (cancelObjs w !! co) as [[s|]|]; simpl;
    try (exists []; by rewrite app_nil_r).
  eexists; (split; [done|by repeat constructor]).
Qed.

(** Without properties nothing a caller does ever gets the driver a
    connection, or as far as [DriverManager]. *)
Lemma reachable_unconnected cfg w :
  properties (mergedConfig cfg) = None →
  reachable cfg w →
  constructor cfg = inr (this w) ∧ unconnected w ∧
  Forall (λ e, is_getConnection e = false) (trace w).
Proof.
  intros Hp.
  induction 1 as [d Hd|q values w Hw IH|w Hw IH|p w Hw IH|p w Hw IH
                 |expired w Hw IH].
  - split; [done|]. split; [|constructor].
    rewrite constructor_unfold in Hd. repeat case_match; by simplify_eq.
  - by rewrite query_unfold.
  - unfold testConnection. by rewrite query_unfold.
  - destruct IH as (Hc & Hu & Htr).
    destruct (settle_unconnected p w Hu) as [Ht (evs & He & Hevs)].
    unfold unconnected. rewrite Ht, He. split; [done|]. split; [done|].
    by apply Forall_app.
  - destruct IH as (Hc & Hu & Htr).
    destruct (call_cancel_trace p w) as (evs & He & Hevs).
    unfold unconnected. rewrite call_cancel_this, He.
    split; [done|]. split; [done|]. by apply Forall_app.
  - destruct IH as (Hc & (Hj & Hpw & Hi & Hb) & Htr).
    rewrite evict_unfold, Hi, !filter_nil. simpl. rewrite app_nil_r.
    unfold unconnected. simpl. split; [|done]. rewrite Hc.
    destruct w as [[? ? [? ? ?]] ? ? ?]. simpl in *. by subst.
Qed.

(** C8: when the configured type has no catalog entry and the
    configuration gives no [properties], construction succeeds as soon as
    url and driver name are non-empty; from then on every call of the
    [create] hook throws the [TypeError] of [Object.entries(undefined)]
    without having called [DriverManager.getConnection]; and so, in a pool
    that admits a connection, does every [acquire], and every query
    rejects with that error. *)
Theorem create_throws_without_properties (cfg : JDBCDriverConfiguration) :
  constructor_dbTypeDescription cfg = None →
  c_properties cfg = Absent ∨ c_properties cfg = Given None →
  truthy (drivername (mergedConfig cfg)) = true →
  truthy (url (mergedConfig cfg)) = true →
  let te := TypeError "Cannot convert undefined or null to object" in
  (∃ d, constructor cfg = inr d) ∧
  ∀ w, reachable cfg w →
    let w1 :=
      add_event (AddToClasspath (Promised (customClassPath (config (this w))))) w in
    create w = (inl te, w1) ∧
    Forall (λ e, is_getConnection e = false) (trace w) ∧
    (0 < max (options (pool (this w))) →
     pool_acquire w = (inl te, w1) ∧
     ∀ q values,
       let p := S (length (promises w)) in
       fst (query q values w) = inr p ∧
       state_of p (settle p (snd (query q values w))) = Some (Rejected te)).
Proof.
  intros Hd Hprops Hdn Hurl. cbv zeta.
  assert (properties (mergedConfig cfg) = None) as Hp.
  { unfold mergedConfig. simpl. rewrite Hd. by destruct Hprops as [-> | ->]. }
  split.
  { rewrite constructor_unfold. unfold default_url. rewrite Hd, Hdn, Hurl.
    destruct (truthy (env !! "CUBEJS_JDBC_URL")); simpl; eauto. }
  intros w Hw.
  destruct (reachable_unconnected cfg w Hp Hw) as (_ & Hu & Htr).
  pose proof Hu as (Hj & Hpw & Hi & Hb).
  split; [by rewrite create_unfold, Hj, Hpw|].
  split; [done|].
  intros Hmax.
  assert ((0 <? max (options (pool (this w)))) = true) as Hlt by (by apply Z.ltb_lt).
  split.
  { unfold pool_acquire.
    rewrite dispense_unfold, take_candidate_unfold, Hi, Hb.
    cbn [length]. change (Z.of_nat 0) with 0.
    by rewrite Hlt, create_unfold, Hj, Hpw. }
  intros q values.
  pose proof (settle_query q values w) as Hs.
  rewrite query_unfold in *. cbv zeta in *. cbn [fst snd] in *.
  split; [done|].
  rewrite queryPromised_unconnected in Hs by done.
  cbn [this pool] in Hs. rewrite Hlt in Hs. rewrite Hs.
  unfold state_of. simpl.
  rewrite (lookup_app_r (promises w)) by lia.
  by replace (S (length (promises w)) - length (promises w))%nat with 1%nat by lia.
Qed.

(** *** [testConnection] *)

(** C10: [testConnection()] is the call [query('SELECT 1', [])], in every
    world; and when the formatter leaves that query as it is, the pool
    hands out a connection and the native layer answers [SELECT 1] with a
    result set, the promise fulfils with that result set, [SELECT 1] being
    the one statement executed. *)
Theorem testConnection_is_query_SELECT_1 :
  (∀ w, testConnection w = query "SELECT 1" [] w) ∧
  (∀ w c w1 rs,
     let w0 := snd (testConnection w) in
     let p := S (length (promises w)) in
     format "SELECT 1" [] = "SELECT 1" →
     pool_acquire w0 = (inr c, w1) →
     (∀ tr c, createStatement native tr c = None) →
     (∀ tr s n, setQueryTimeout native tr s n = None) →
     (∀ tr s, executeQuery native tr s "SELECT 1" = inr rs) →
     (∀ e, toObjArray rs ≠ Some (inl e)) →
     fst (testConnection w) = inr p ∧
     (∃ v, state_of p (settle p w0) = Some (Fulfilled v) ∧
           result_rows v = match toObjArray rs with
                           | Some (inr r) => r
                           | _ => rs_rows rs
                           end) ∧
     executed_sql (trace (settle p w0)) = executed_sql (trace w) ++ ["SELECT 1"]).
Proof.
  split; [done|].
  intros w c w1 rs. unfold testConnection.
  pose proof (settle_query "SELECT 1" [] w) as Hs.
  rewrite query_unfold in *. cbv zeta in *. cbn [fst snd] in *.
  intros Hfmt Hacq Hcreate Htimeout Hexec Hconv.
  split; [done|].
  unfold applyParams in *. rewrite Hfmt in *.
  match type of Hs with context [queryPromised ?a ?b ?c ?x] =>
    pose proof (queryPromised_after_acquire a b c x _ _ Hacq) as H;
    pose proof (respects_dispense _ acquireRetries pool_blind_executed x) as Ha
  end.
  fold pool_acquire in Ha. rewrite Hacq in Ha. unfold same in Ha.
  cbn [snd trace] in Ha.
  rewrite statements_array, executeStatement_unfold, Hcreate in H.
  cbv zeta in H. rewrite Htimeout, Hexec in H. unfold toObjArrayAsync in H.
  assert (∀ (l : list promise) x y, (l ++ [x; y]) !! S (length l) = Some y) as Hl.
  { intros l x y. rewrite (lookup_app_r l) by lia.
    by replace (S (length l) - length l)%nat with 1%nat by lia. }
  destruct (toObjArray rs) as [[e|r]|] eqn:Hto; [by destruct (Hconv e)| |];
    unfold_monad; cbv beta iota zeta in H; rewrite H in Hs; rewrite Hs;
    unfold state_of; cbn [promises trace]; rewrite Hl;
    (split; [by eexists|]).
  all: unfold executed_sql in *; simpl; rewrite !omap_app; simpl.
  all: by rewrite Ha, !app_nil_r.
Qed.

(** ** Further properties *)

(** *** Building the native properties *)

Lemma put_all_lookup (entries : Properties) :
  NoDup entries.*1 →
  (∀ k v, put_all entries !! k = Some v ↔ (k, v) ∈ entries) ∧
  size (put_all entries) = length entries.
Proof.
  unfold put_all, JavaProperties.
  induction entries as [|[k0 v0] entries IH] using rev_ind; intros Hnd.
  { split; [|done]. intros k v.
    change (foldl _ ∅ []) with (∅ : gmap string string).
    split; [by rewrite lookup_empty|]. by intros ?%elem_of_nil. }
  rewrite fmap_app in Hnd. apply NoDup_app in Hnd as (Hnd & Hfresh & _).
  destruct (IH Hnd) as [Hlook Hsize].
  assert (foldl (λ (p : gmap string string) '(name, value), <[name:=value]> p)
            ∅ entries !! k0 = None) as Hk0.
  { destruct (foldl _ ∅ entries !! k0) as [v|] eqn:Hv; [|done].
    apply Hlook in Hv. destruct (Hfresh k0).
    - apply list_elem_of_fmap. by exists (k0, v).
    - simpl. by left. }
  rewrite foldl_snoc. split.
  - intros k v. rewrite elem_of_app, list_elem_of_singleton.
    destruct (decide (k = k0)) as [->|Hne].
    + rewrite lookup_insert_eq. split.
      * intros [= ->]. by right.
      * intros [Hin|[= ->]]; [|done].
        apply Hlook in Hin. congruence.
    + rewrite lookup_insert_ne by done. rewrite Hlook.
      split; [by left|]. intros [?|[= ? ?]]; [done|congruence].
  - rewrite map_size_insert_None by done. rewrite length_app, Hsize. simpl. lia.
Qed.

(** [getJdbcProperties] on a defined mapping changes nothing in the world
    and returns a [Properties] object that holds exactly the entries of
    [config.properties]. *)
Theorem getJdbcProperties_holds_the_entries (w : world) (entries : Properties) :
  properties (config (this w)) = Some entries →
  NoDup entries.*1 →
  ∃ p, getJdbcProperties w = (inr p, w) ∧
       (∀ k v, p !! k = Some v ↔ (k, v) ∈ entries) ∧
       size p = length entries.
Proof.
  intros Hp Hnd. exists (put_all entries).
  split; [|by apply put_all_lookup].
  unfold getJdbcProperties. unfold_monad. by rewrite Hp.
Qed.

(** *** Invariants of a driver in use *)

(** [I] is kept: it holds afterwards if it held before. *)
Definition keeps_inv (I : world → Prop) : relation world := λ w w', I w → I w'.

#[local] Instance keeps_inv_preorder I : PreOrder (keeps_inv I).
Proof. split; unfold keeps_inv; [by intros w|]. intros w1 w2 w3; auto. Qed.

(** An invariant of the heap operations, of the native [cancel], of
    [queryPromised] and of the evictor holds in every world a caller can
    bring about. *)
Lemma reachable_invariant (I : world → Prop) cfg :
  (∀ d, constructor cfg = inr d → I (initial_world d)) →
  (∀ q co o w, I w → I (snd (queryPromised q co o w))) →
  (∀ g w, I w → I (set_promises g w)) →
  (∀ g w, I w → I (set_cancelObjs g w)) →
  (∀ s w, I w → I (add_event (Cancel s) w)) →
  (∀ expired w, I w → I (snd (evict expired w))) →
  ∀ w, reachable cfg w → I w.
Proof.
  intros Hinit Hq Hpr Hco Hcancel Hevict.
  assert (∀ q values w, I w → I (snd (query q values w))) as Hquery.
  { intros q values w Hw. rewrite query_unfold. cbv zeta. cbn [snd].
    match goal with
    | |- I {| this := _; cancelObjs := _; promises := ?ps; trace := _ |} =>
        change (I (set_promises (λ _, ps) (set_cancelObjs (λ l, l ++ [None]) w)))
    end.
    by apply Hpr, Hco. }
  assert (∀ p w, I w → I (run_job p w)) as Hjob.
  { intros p w Hw. unfold run_job.
    destruct (state_of p w) as [[j| | |]|]; try done.
    specialize (Hq (job_query j) (job_cancelObj j) (job_options j) w Hw).
    destruct (queryPromised _ _ _ w) as [r w']. by apply Hpr. }
  induction 1 as [d Hd|q values w Hw IH|w Hw IH|p w Hw IH|p w Hw IH
                 |expired w Hw IH].
  - by apply Hinit.
  - by apply Hquery.
  - by apply Hquery.
  - unfold settle. destruct (state_of p w) as [[j|i| |]|]; try done.
    + by apply Hjob.
    + specialize (Hjob i w IH).
      destruct (state_of i (run_job i w)) as [[| | |]|]; try done;
        by apply Hpr.
  - unfold call_cancel, cancel_closure, statement_cancel. unfold_monad.
    destruct (promises w !! p ≫= p_cancel) as [co|]; [|done]. simpl.
    destruct (cancelObjs w !! co) as [[s|]|]; try done.
    by apply Hcancel.
  - by apply Hevict.
Qed.

(** The pool and [queryPromised] stay within a relation that [create] and
    the other events stay within. *)
Section by_create.
Context (R : relation world) `{!PreOrder R}.
Hypothesis Hev : ∀ e, is_getConnection e = false → quiet R e.
Hypothesis Hco : ∀ g w, R w (set_cancelObjs g w).
Hypothesis Hpool : ∀ g w, R w (set_pool g w).
Hypothesis Hcreate : respects R create.

Lemma respects_dispense_by n : respects R (dispense n).
Proof using All.
  induction n as [|n IH]; simpl; respects_auto.
  all: try (unfold take_candidate; respects_auto; done).
  all: try (unfold lend; respects_auto; by apply Hev).
  all: try (apply respects_validate; first [tc_solve|intros ?; by apply Hev]).
  all: apply respects_destroy; first [tc_solve|by apply Hev].
Qed.

Lemma respects_queryPromised_by q co o : respects R (queryPromised q co o).
Proof using All.
  unfold queryPromised, rethrow, pool_acquire. respects_auto.
  - apply respects_dispense_by.
  - apply respects_statements; try tc_solve.
    split; [|done]. intros e He. apply Hev. by destruct e.
  - unfold pool_release. respects_auto.
Qed.

End by_create.

Lemma configured_add_event c e w :
  connects_as_configured c e → configured c w → configured c (add_event e w).
Proof.
  intros He (Hc & Hj & Htr). split; [done|]. split; [done|].
  simpl. apply Forall_app. split; [done|]. by constructor.
Qed.

Lemma create_configured c : respects (keeps_inv (configured c)) create.
Proof.
  intros w Hw. pose proof Hw as (Hc & Hj & Htr). rewrite create_unfold.
  cbv zeta. unfold DriverManager_getConnection.
  set (w1 := add_event (AddToClasspath _) w).
  assert (configured c w1) as Hw1 by (by apply configured_add_event).
  destruct (jdbcProps (this w)) as [p|] eqn:Hp.
  - destruct (Hj p eq_refl) as (entries & He & ->).
    destruct (getConnection _ _ _ _); simpl; apply configured_add_event;
      try done; simpl; rewrite Hc; eauto.
  - destruct (properties (config (this w))) as [entries|] eqn:He; [|done].
    rewrite Hc in He.
    assert (configured c (set_jdbcProps (put_all entries) w1)) as Hw2.
    { destruct Hw1 as (? & ? & ?). split; [done|]. split; [|done].
      simpl. intros p [= <-]. eauto. }
    destruct (getConnection _ _ _ _); simpl; apply configured_add_event;
      try done; simpl; rewrite Hc; eauto.
Qed.

(** Every call of [DriverManager.getConnection] a driver makes is given
    [this.config.url] and the [Properties] built from
    [this.config.properties], and [this.jdbcProps], once built, holds those
    and is not built again. *)
Theorem connections_use_the_configuration cfg w :
  reachable cfg w → configured (mergedConfig cfg) w.
Proof.
  revert w. apply reachable_invariant.
  - intros d Hd. rewrite constructor_unfold in Hd.
    repeat case_match; simplify_eq.
    split; [done|]. split; [done|]. constructor.
  - intros q co o w. apply (respects_queryPromised_by (keeps_inv _)).
    + intros e He w' Hw'. apply configured_add_event; [|done]. by destruct e.
    + by intros g w' Hw'.
    + by intros g w' Hw'.
    + apply create_configured.
  - by intros g w' Hw'.
  - by intros g w' Hw'.
  - intros s w' Hw'. by apply configured_add_event.
  - intros expired w' (Hc & Hj & Htr). rewrite evict_unfold.
    split; [done|]. split; [done|]. simpl.
    apply Forall_app. split; [done|]. by apply Forall_fmap, Forall_true.
Qed.

(** *** No connection is left on loan *)

Lemma create_pool w : pool (this (snd (create w))) = pool (this w).
Proof.
  rewrite create_unfold. cbv zeta. unfold DriverManager_getConnection.
  destruct (jdbcProps (this w)); [by destruct (getConnection _ _ _ _)|].
  destruct (properties (config (this w))); [|done].
  by destruct (getConnection _ _ _ _).
Qed.

(** The connections on loan after [acquire]: one more when it succeeds,
    the same when it fails. *)
Lemma dispense_borrowed n w :
  borrowed (pool (this (snd (dispense n w)))) =
    match fst (dispense n w) with
    | inl _ => borrowed (pool (this w))
    | inr c => borrowed (pool (this w)) ++ [c]
    end.
Proof.
  revert w. induction n as [|n IH]; intros w; rewrite dispense_unfold,
    take_candidate_unfold.
  all: assert (∀ c w1, borrowed (pool (this w1)) = borrowed (pool (this w)) →
         borrowed (pool (this (snd (lend c w1)))) =
         match fst (lend c w1) with
         | inl _ => borrowed (pool (this w))
         | inr c => borrowed (pool (this w)) ++ [c]
         end) as Hlend
    by (intros c w1 Hw1; rewrite lend_unfold; simpl; by rewrite Hw1).
  all: destruct (idle (pool (this w))) as [|c0 rest]; simpl.
  all: try (destruct (_ <? _); [|done];
            pose proof (create_pool w) as Hcp;
            destruct (create w) as [[e|c0] w0]; simpl in *; [by rewrite Hcp|]).
  all: destruct (testOnBorrow _); simpl;
    try (apply Hlend; simpl; by rewrite ?Hcp).
  all: destruct (isValid _ _ _ _) as [e|[]]; simpl;
    try (apply Hlend; simpl; by rewrite ?Hcp).
  all: try (by rewrite ?Hcp).
  all: rewrite IH; simpl; by rewrite ?Hcp.
Qed.

Lemma queryPromised_returns_the_loan q co o w :
  borrowed (pool (this w)) = [] →
  borrowed (pool (this (snd (queryPromised q co o w)))) = [].
Proof.
  intros Hb. rewrite queryPromised_unfold.
  pose proof (dispense_borrowed acquireRetries w) as Hd.
  fold pool_acquire in Hd.
  destruct (pool_acquire w) as [[ex|c] w1]; simpl in Hd;
    [by rewrite rethrow_world, Hd|].
  pose proof (respects_statements _ c q co o stmt_blind_this w1) as Hthis.
  unfold same in Hthis.
  destruct (statements c q co o w1) as [r w2]. simpl in *.
  rewrite pool_release_on_loan by (rewrite Hthis, Hd, Hb; by left).
  assert (borrowed (pool (this (set_pool (λ p,
       {| options := options p; idle := idle p ++ [c];
          borrowed := filter (λ x, x ≠ c) (borrowed p) |})
       (add_event (PoolRelease c) w2)))) = []) as Hrel.
  { simpl. rewrite Hthis, Hd, Hb. simpl. by rewrite filter_cons_False by auto. }
  destruct r as [ex|v]; [by rewrite rethrow_world|done].
Qed.

(** However the queries of a driver ended and whatever the native layer
    answered, once they have run no connection is on loan. *)
Theorem no_connection_stays_on_loan cfg w :
  reachable cfg w → borrowed (pool (this w)) = [].
Proof.
  revert w. apply reachable_invariant; try done.
  - intros d Hd. rewrite constructor_unfold in Hd.
    by repeat case_match; simplify_eq.
  - intros q co o w'. apply queryPromised_returns_the_loan.
  - intros expired w' Hw'. by rewrite evict_unfold.
Qed.

(** *** The guarded block of [queryPromised] *)

Lemma executeStatement_calls c q co w :
  ∃ evs, trace (snd (executeStatement c q co w)) = trace w ++ evs ∧
         Forall (statement_call_on c) evs.
Proof.
  rewrite executeStatement_unfold.
  destruct (createStatement _ _ _); simpl.
  { eexists. split; [done|]. by repeat constructor. }
  destruct co as [co|]; simpl;
    (destruct (setQueryTimeout _ _ _ _); simpl;
     [rewrite <- ?app_assoc; simpl; eexists; split; [done|]; by repeat constructor|]);
    (destruct (executeQuery _ _ _ _) as [e|rs]; simpl;
     [rewrite <- ?app_assoc; simpl; eexists; split; [done|]; by repeat constructor|]);
    rewrite toObjArrayAsync_trace; simpl; rewrite <- ?app_assoc; simpl;
    destruct (toObjArray rs); eexists; (split; [done|]); by repeat constructor.
Qed.

(** The statements of a query, preparatory and main, only make statement
    calls, every statement they create is created on the connection they
    were given, and every timeout they set is 600 seconds; they make no call
    on the pool, open or close no connection, and leave the driver object
    and the promises alone. *)
Theorem statements_stay_on_the_connection
    (c : conn) (q : string) (co : option nat) (o : jsoptions) (w : world) :
  let w' := snd (statements c q co o w) in
  (∃ evs, trace w' = trace w ++ evs ∧ Forall (statement_call_on c) evs) ∧
  this w' = this w ∧ promises w' = promises w.
Proof.
  cbv zeta. split; [|split].
  - unfold statements, bind.
    assert (∀ qs w, ∃ evs, trace (snd (prepare c qs w)) = trace w ++ evs ∧
                           Forall (statement_call_on c) evs) as Hprep.
    { induction qs as [|q0 qs IH]; intros w0; simpl.
      { exists []. by rewrite app_nil_r. }
      unfold bind. destruct (executeStatement_calls c q0 None w0) as (evs & He & Hf).
      destruct (executeStatement c q0 None w0) as [[e|v] w1]; simpl in *; [eauto|].
      destruct (IH w1) as (evs' & He' & Hf').
      exists (evs ++ evs'). rewrite He', He, app_assoc. split; [done|].
      by apply Forall_app. }
    destruct (Hprep (options_prepareConnectionQueries o) w) as (evs & He & Hf).
    destruct (prepare c _ w) as [[e|[]] w1]; simpl in *; [eauto|].
    destruct (executeStatement_calls c q co w1) as (evs' & He' & Hf').
    exists (evs ++ evs'). rewrite He', He, app_assoc. split; [done|].
    by apply Forall_app.
  - apply (respects_statements _ c q co o stmt_blind_this w).
  - apply (respects_statements _ c q co o
             (static_stmt_blind _ static_promises) w).
Qed.

Lemma prepare_succeed c qs rest w w1 :
  succeed_in_turn c qs w w1 → prepare c (qs ++ rest) w = prepare c rest w1.
Proof.
  induction 1 as [|q qs v w w1 w2 Hq Hqs IH]; [done|].
  simpl. unfold bind at 1. by rewrite Hq.
Qed.

(** The preparatory statements [(options || {}).prepareConnectionQueries ||
    []] are handed to [executeQuery] in order, ahead of the query, and a
    block that succeeds has executed all of them and then the query.  The
    first of them that fails ends the block: the block throws what that
    statement threw and leaves the world as that statement left it, so that
    neither a later preparatory statement nor the query is run.  When all
    of them have succeeded, the block is the execution of the query, with
    the handle, in the world they left. *)
Theorem statements_run_in_order
    (c : conn) (q : string) (co : option nat) (o : jsoptions) (w : world) :
  let l := options_prepareConnectionQueries o in
  (∃ k m,
     (k ≤ length l)%nat ∧
     executed_sql (trace (snd (statements c q co o w)))
     = executed_sql (trace w) ++ take k l ++ m ∧
     (m = [] ∨ m = [q] ∧ k = length l) ∧
     match fst (statements c q co o w) with
     | inr _ => k = length l ∧ m = [q]
     | inl _ => True
     end) ∧
  (∀ before p after w1 e w2,
     l = before ++ p :: after →
     succeed_in_turn c before w w1 →
     executeStatement c p None w1 = (inl e, w2) →
     statements c q co o w = (inl e, w2)) ∧
  (∀ w1,
     succeed_in_turn c l w w1 →
     statements c q co o w = executeStatement c q co w1).
Proof.
  cbv zeta. split; [|split].
  - unfold statements, bind.
    destruct (prepare_in_order c (options_prepareConnectionQueries o) w)
      as (k & Hk & Htr & Hok).
    destruct (prepare c _ w) as [[e|[]] w1]; simpl in *.
    { exists k, []. rewrite app_nil_r. repeat split; auto. }
    specialize (Hok eq_refl). subst k.
    pose proof (executeStatement_executed c q co w1) as Hx. simpl in Hx.
    destruct (executeStatement c q co w1) as [[e|v] w2]; simpl in *.
    + destruct Hx as [[Hx _]|Hx]; rewrite Hx, Htr.
      * exists (length (options_prepareConnectionQueries o)), [].
        rewrite app_nil_r, firstn_all. repeat split; auto.
      * exists (length (options_prepareConnectionQueries o)), [q].
        rewrite <- app_assoc, firstn_all. repeat split; auto.
    + destruct Hx as [[_ [e He]]|Hx]; [done|]. rewrite Hx, Htr.
      exists (length (options_prepareConnectionQueries o)), [q].
      rewrite <- app_assoc, firstn_all. repeat split; auto.
  - intros before p after w1 e w2 Hl Hbefore Hp.
    unfold statements. unfold bind at 1.
    rewrite Hl, (prepare_succeed c before (p :: after) w w1 Hbefore).
    simpl. unfold bind at 1. by rewrite Hp.
  - intros w1 Hl. unfold statements. unfold bind at 1.
    rewrite <- (app_nil_r (options_prepareConnectionQueries o)).
    by rewrite (prepare_succeed c _ [] w w1 Hl).
Qed.

(** *** Cancellation handles *)

(** [executeStatement] binds the handle when, and only when,
    [createStatement] has returned: a failure of [setQueryTimeout], of
    [executeQuery] or of the conversion leaves it bound to the statement,
    a failure of [createStatement] leaves it as it was. *)
Theorem executeStatement_binds_handle_at_creation
    (c : conn) (q : string) (co : nat) (w : world) :
  cancelObjs (snd (executeStatement c q (Some co) w)) =
    match createStatement native (trace w) c with
    | None => <[co:=Some (fresh_stmt (trace w))]> (cancelObjs w)
    | Some _ => cancelObjs w
    end.
Proof.
  rewrite executeStatement_unfold.
  destruct (createStatement _ _ _); [done|]. simpl.
  destruct (setQueryTimeout _ _ _ _); [done|]. simpl.
  destruct (executeQuery _ _ _ _) as [e|rs]; [done|]. simpl.
  unfold toObjArrayAsync. by destruct (toObjArray rs) as [[e|r]|].
Qed.

Lemma executeStatement_other_handle c q co other w :
  co ≠ Some other →
  cancelObjs (snd (executeStatement c q co w)) !! other = cancelObjs w !! other.
Proof.
  intros Hne. destruct co as [co|]; [|by rewrite executeStatement_no_handle].
  rewrite executeStatement_unfold.
  assert (∀ s, <[co:=Some s]> (cancelObjs w) !! other = cancelObjs w !! other)
    as Hins by (intros s; apply list_lookup_insert_ne; congruence).
  destruct (createStatement _ _ _); [done|]. simpl.
  destruct (setQueryTimeout _ _ _ _); [simpl; apply Hins|]. simpl.
  destruct (executeQuery _ _ _ _) as [e|rs]; [simpl; apply Hins|]. simpl.
  unfold toObjArrayAsync.
  destruct (toObjArray rs) as [[e|r]|]; simpl; apply Hins.
Qed.

(** A run of [queryPromised] touches no [cancelObj] but the one it was
    given: the handle of another query stays as it was, bound or not. *)
Theorem queryPromised_binds_only_its_handle
    (q : string) (co : option nat) (o : jsoptions) (w : world) (other : nat) :
  co ≠ Some other →
  cancelObjs (snd (queryPromised q co o w)) !! other = cancelObjs w !! other.
Proof.
  intros Hne. rewrite queryPromised_unfold.
  pose proof (respects_dispense _ acquireRetries pool_blind_cancelObjs w) as Ha.
  fold pool_acquire in Ha. unfold same in Ha.
  destruct (pool_acquire w) as [[ex|c] w1]; simpl in Ha;
    [by rewrite rethrow_world, Ha|].
  assert (cancelObjs (snd (statements c q co o w1)) !! other
          = cancelObjs w1 !! other) as Hst.
  { unfold statements, bind.
    pose proof (prepare_no_handle c (options_prepareConnectionQueries o) w1) as Hp.
    destruct (prepare c _ w1) as [[e|[]] w2]; simpl in *; [by rewrite Hp|].
    by rewrite executeStatement_other_handle, Hp. }
  destruct (statements c q co o w1) as [r w2]. simpl in Hst.
  pose proof (respects_pool_release _ c pool_blind_cancelObjs w2) as Hrel.
  unfold same in Hrel.
  destruct (pool_release c w2) as [[ex|[]] w3]; simpl in Hrel.
  - by rewrite rethrow_world, Hrel, Hst, Ha.
  - destruct r as [ex|v]; simpl; rewrite ?rethrow_world;
      by rewrite Hrel, Hst, Ha.
Qed.

(** Calling [cancel] on a promise makes at most one native call, the
    [cancel] of the statement bound to the handle the promise's [cancel]
    names, and nothing else: it does not release or close the connection,
    settle a promise or unbind the handle.  Without a [cancel] the call
    throws; with an unbound handle it rejects and nothing reaches the
    native layer; with a bound one the statement cancelled is that one, and
    the promise returned ends as the native call decides. *)
Theorem call_cancel_only_cancels (p : nat) (w : world) :
  let w' := snd (call_cancel p w) in
  this w' = this w ∧ promises w' = promises w ∧ cancelObjs w' = cancelObjs w ∧
  match promises w !! p ≫= p_cancel with
  | None => call_cancel p w = (inl (TypeError "cancel is not a function"), w)
  | Some cancelObj =>
      match cancelObjs w !! cancelObj with
      | Some (Some s) =>
          trace w' = trace w ++ [Cancel s] ∧
          fst (call_cancel p w) =
            match cancel native (trace w) s with
            | CancelThrows e => inl e
            | CancelCallsBack (Some e) => inl e
            | CancelCallsBack None => inr Resolves
            | CancelReturns => inr StaysPending
            end
      | _ => call_cancel p w = (inl (Error "Statement is not ready"), w)
      end
  end.
Proof.
  cbv zeta. unfold call_cancel, cancel_closure, statement_cancel. unfold_monad.
  destruct (promises w !! p ≫= p_cancel) as [co|]; simpl; [|by auto].
  destruct (cancelObjs w !! co) as [[s|]|]; simpl; by auto.
Qed.

(** *** Rejections of [queryPromised] *)

(** No rejection of [queryPromised] carries a cause: it is either an error
    made in the [catch] block or an error that had none. *)
Theorem queryPromised_rejects_without_cause
    (q : string) (co : option nat) (o : jsoptions) (w : world) :
  match fst (queryPromised q co o w) with
  | inl e => ex_cause e = None
  | inr _ => True
  end.
Proof.
  assert (∀ ex w', match fst (rethrow ex w') with
                   | inl e => ex_cause e = None
                   | inr _ => True
                   end) as Hre.
  { intros ex w'. rewrite rethrow_unfold. simpl.
    by destruct (ex_cause ex) as [[m c|]|] eqn:He. }
  rewrite queryPromised_unfold.
  destruct (pool_acquire w) as [[ex|c] w1]; [apply Hre|].
  destruct (statements c q co o w1) as [r w2].
  destruct (pool_release c w2) as [[ex|[]] w3]; [apply Hre|].
  destruct r as [ex|v]; [apply Hre|done].
Qed.

(** When [pool.acquire] rejects with [ex], [queryPromised] rejects with
    what the [catch] block makes of it, [ex] itself when it carries no
    cause, a new [Error] with the message [ex.cause.getMessage()] returns
    when its cause has that method, and the [TypeError] of the failed call
    when its cause does not; and it has done nothing else: no statement was
    created, [pool.release] was not called, and the handle is as unbound as
    before. *)
Theorem queryPromised_without_connection
    (q : string) (co : option nat) (o : jsoptions) (w : world) (ex : exn)
    (w1 : world) :
  pool_acquire w = (inl ex, w1) →
  queryPromised q co o w =
    (inl (match ex_cause ex with
          | Some (JavaThrowable message _) => Error (String_of message)
          | Some NotThrowable =>
              TypeError "ex.cause.getMessage is not a function"
          | None => ex
          end), w1) ∧
  cancelObjs w1 = cancelObjs w ∧
  executed_sql (trace w1) = executed_sql (trace w).
Proof.
  intros Hacq. rewrite queryPromised_unfold, Hacq.
  pose proof (respects_dispense _ acquireRetries pool_blind_cancelObjs w) as Hc.
  pose proof (respects_dispense _ acquireRetries pool_blind_executed w) as Hx.
  fold pool_acquire in Hc, Hx. rewrite Hacq in Hc, Hx.
  split; [|by split].
  by rewrite rethrow_unfold.
Qed.

(** *** [withConnection] *)

(** [withConnection(fn)] calls [fn] on the acquired connection, releases
    that connection whether [fn] returns or throws, and hands on the
    outcome of [fn] as it is, an exception with its cause; when
    [pool.acquire] rejects, [fn] is not called. *)
Theorem withConnection_releases_and_propagates
    {A} (fn : conn → M A) (w : world) :
  (∀ c w', this (snd (fn c w')) = this w') →
  match pool_acquire w with
  | (inl ex, w1) => withConnection fn w = (inl ex, w1)
  | (inr c, w1) =>
      let '(r, w2) := fn c w1 in
      withConnection fn w =
        (r, set_pool (λ p,
              {| options := options p; idle := idle p ++ [c];
                 borrowed := filter (λ x, x ≠ c) (borrowed p) |})
              (add_event (PoolRelease c) w2))
  end.
Proof.
  intros Hfn. unfold withConnection, bind, try_finally.
  destruct (pool_acquire w) as [[ex|c] w1] eqn:Hacq; [done|].
  specialize (Hfn c w1).
  destruct (fn c w1) as [r w2]. simpl in Hfn.
  rewrite pool_release_on_loan; [done|].
  rewrite Hfn. by apply dispense_lends in Hacq as [? _].
Qed.

(** *** Resolving the preparatory statements and the pool size *)

(** [prepareConnectionQueries()] never throws and changes nothing; it
    returns the array given in the constructor's argument, an empty one
    included, and without one the array of the catalog entry of
    [this.config.dbType], or [[]] when there is no entry or the entry has
    none. *)
Theorem prepareConnectionQueries_resolution
    (cfg : JDBCDriverConfiguration) (w : world) :
  config (this w) = mergedConfig cfg →
  ∃ l, prepareConnectionQueries w = (inr l, w) ∧
    (∀ l', c_prepareConnectionQueries cfg = Given (Some l') → l = l') ∧
    (c_prepareConnectionQueries cfg = Absent ∨
     c_prepareConnectionQueries cfg = Given None →
     l = match dbTypeDescription (dbType (mergedConfig cfg)) with
         | Some d => default [] (d_prepareConnectionQueries d)
         | None => []
         end).
Proof.
  intros Hc. eexists. split; [reflexivity|]. rewrite Hc. simpl. split.
  - by intros l' ->.
  - intros [-> | ->]; simpl; by destruct (dbTypeDescription _).
Qed.

(** The catalog entry [prepareConnectionQueries()] reads is the one the
    constructor took its defaults from when [dbType] is left out of the
    argument or given non-empty; when it is given as [undefined] or empty,
    the constructor falls back to the entry of [CUBEJS_DB_TYPE] while
    [prepareConnectionQueries()] looks up the falsy value itself. *)
Theorem prepareConnectionQueries_catalog_entry (cfg : JDBCDriverConfiguration) :
  let at_construction := constructor_dbTypeDescription cfg in
  let later := dbTypeDescription (dbType (mergedConfig cfg)) in
  (c_dbType cfg = Absent → later = at_construction) ∧
  (∀ t, c_dbType cfg = Given (Some t) → t ≠ "" → later = at_construction) ∧
  (∀ v, c_dbType cfg = Given v → truthy v = false →
     later = SupportedDrivers !! property_key v ∧
     at_construction = dbTypeDescription (env !! "CUBEJS_DB_TYPE")).
Proof.
  cbv zeta. unfold constructor_dbTypeDescription, mergedConfig. simpl.
  split; [|split].
  - by intros ->.
  - intros t -> Ht. simpl. unfold js_or. simpl.
    by destruct (String.eqb_spec t "").
  - intros v -> Hv. simpl. unfold js_or. by rewrite Hv.
Qed.

(** The default pool size read from [CUBEJS_DB_MAX_POOL] is never 0: an
    unset, empty or non-numeric variable and one that parses to 0 all give
    8; and the pool of a constructed driver has [max = 0] only when
    [poolOptions.max] says so. *)
Theorem defaultMax_is_never_zero :
  defaultMax ≠ 0 ∧
  (env !! "CUBEJS_DB_MAX_POOL" = None → defaultMax = 8) ∧
  (∀ s, env !! "CUBEJS_DB_MAX_POOL" = Some s →
        parseInt s = None ∨ parseInt s = Some 0 → defaultMax = 8) ∧
  (∀ cfg d, constructor cfg = inr d → max (options (pool d)) = 0 →
            c_poolOptions cfg ≫= p_max = Some 0).
Proof.
  assert (defaultMax ≠ 0) as Hnz.
  { unfold defaultMax. destruct (env !! _) as [s|]; [|done].
    destruct (truthy _); [|done]. destruct (parseInt s) as [n|]; [|done].
    destruct (Z.eqb_spec n 0); done. }
  split; [done|]. split; [|split].
  - intros H. unfold defaultMax. by rewrite H.
  - intros s H Hp. unfold defaultMax. rewrite H.
    destruct (truthy _); [|done]. by destruct Hp as [-> | ->].
  - intros cfg d Hd Hmax. unfold constructor in Hd.
    repeat case_match; simplify_eq. simpl in Hmax.
    unfold mergedPoolOptions in Hmax. simpl in Hmax.
    destruct (c_poolOptions cfg) as [po|]; simpl in *; [|done].
    destruct (p_max po); simpl in *; [by subst|done].
Qed.

(** *** The [create] hook *)

(** Every call of [create] first calls [Java.addToClasspath], handing it
    the promise the [async] method [getCustomClassPath()] returned, a
    promise for [this.config.customClassPath] and not that value itself;
    then it makes at most one call of [DriverManager.getConnection], with
    the configured url, and nothing else: it resolves exactly when that call
    opened a connection, and it leaves the pool, the handles and the
    promises alone.  The native properties are set afterwards exactly when
    they were set before or the configuration has a properties mapping. *)
Theorem create_adds_classpath_then_connects (w : world) :
  let w' := snd (create w) in
  let cp := AddToClasspath (Promised (customClassPath (config (this w)))) in
  (trace w' = trace w ++ [cp] ∧ (∃ e, fst (create w) = inl e) ∨
   ∃ p o, trace w' = trace w ++ [cp; GetConnection (url (config (this w))) p o] ∧
          match o with
          | Some c => fst (create w) = inr c
          | None => ∃ e, fst (create w) = inl e
          end) ∧
  pool (this w') = pool (this w) ∧ config (this w') = config (this w) ∧
  cancelObjs w' = cancelObjs w ∧ promises w' = promises w ∧
  (is_Some (jdbcProps (this w')) ↔
   is_Some (jdbcProps (this w)) ∨ is_Some (properties (config (this w)))).
Proof.
  cbv zeta. rewrite create_unfold. cbv zeta.
  unfold DriverManager_getConnection.
  destruct (jdbcProps (this w)) as [p|] eqn:Hj.
  - destruct (getConnection _ _ _ _) as [e|] eqn:Hg; simpl; rewrite Hj;
      (split; [right; eexists _, _; rewrite <- app_assoc; split; [done|]; simpl; eauto|]);
      repeat split; eauto.
  - destruct (properties (config (this w))) as [entries|] eqn:Hp; simpl.
    + destruct (getConnection _ _ _ _) as [e|] eqn:Hg; simpl;
        (split; [right; eexists _, _; rewrite <- app_assoc; split; [done|]; simpl; eauto|]);
        repeat split; eauto.
    + rewrite Hj. split; [left; eauto|].
      repeat split; try done.
      all: first [by intros [[? ?]|[? ?]] | by intros [? ?]].
Qed.

End JDBCDriver.

Arguments AwaitQuery {sqlvalue} q values.
Arguments EvictorRun {sqlvalue} expired.

(** ** The properties on the scenarios *)

Example parseInt_digits : parseInt "12px" = Some 12.
Proof. reflexivity. Qed.

Example parseInt_NaN : parseInt "many" = None.
Proof. reflexivity. Qed.

(** A no-break space, U+00A0, ahead of the digits is skipped. *)
Example parseInt_no_break_space :
  parseInt (String (ascii_of_nat 194) (String (ascii_of_nat 160) "7")) = Some 7.
Proof. reflexivity. Qed.

(** 2^53 + 1 is read as 2^53. *)
Example parseInt_rounds :
  parseInt "9007199254740993" = Some 9007199254740992 ∧
  parseInt "-9007199254740995" = Some (-9007199254740996).
Proof. by vm_compute. Qed.

(** [CUBEJS_DB_MAX_POOL=1] gives a pool of one; a value that does not parse,
    or [0], gives the default of eight. *)
Example defaultMax_from_env :
  defaultMax {[ "CUBEJS_DB_MAX_POOL" := "1" ]} = 1 ∧
  defaultMax {[ "CUBEJS_DB_MAX_POOL" := "many" ]} = 8 ∧
  defaultMax {[ "CUBEJS_DB_MAX_POOL" := "0" ]} = 8 ∧
  defaultMax ∅ = 8.
Proof. by vm_compute. Qed.

(** The calls one query makes, in order. *)
Example trace_of_one_query :
  match constructor demo_catalog ∅ generic_config with
  | inr d =>
      trace (run_query demo_catalog string demo_format good_native 10000 0
               "SELECT ?" ["a"] (initial_world d))
      = [AddToClasspath (Promised None);
         GetConnection (Some "db://host") {[ "user" := "cube" ]} (Some 0%nat);
         IsValid 0%nat (js_div 10000 1000);
         PoolAcquire 0%nat;
         CreateStatement 0%nat (Some 0%nat);
         SetQueryTimeout 0%nat 600;
         ExecuteQuery 0%nat "SELECT 'a'";
         PoolRelease 0%nat]
  | inl _ => False
  end.
Proof. by vm_compute. Qed.



(** The driver name comes from the argument, the url from the environment
    and the properties from the catalog entry of the environment's type. *)
Lemma explicit_over_environment_over_catalog_witness :
  let c := mergedConfig demo_catalog demo_env drivername_config in
  drivername c = Some "explicit.Driver" ∧
  url c = Some "jdbc:env://host" ∧
  properties c = Some [("user", "cube")].
Proof.
  destruct (explicit_over_environment_over_catalog demo_catalog demo_env
              drivername_config)
    as ((_ & Hdn & _) & (Hurl & _) & (_ & _ & Hprops) & (_ & Hlookup)).
  cbv zeta. split; [by apply Hdn|]. split.
  - rewrite Hurl; by vm_compute.
  - rewrite Hprops, Hlookup; [by vm_compute|by left|done].
Defined.

(** A native failure caused by "syntax error" comes out of [queryPromised],
    and out of the awaited [query], as an error with exactly that
    message. *)
Lemma queryPromised_rethrows_cause_witness :
  match constructor demo_catalog ∅ generic_config with
  | inr d =>
      let w := initial_world d in
      fst (queryPromised failing_native 10000 0 "SELECT 1" None
             OptionsUndefined w) = inl (Error "syntax error") ∧
      state_of 1
        (settle failing_native 10000 0 1
           (snd (query demo_catalog string demo_format "SELECT 1" [] w)))
      = Some (Rejected (Error "syntax error"))
  | inl _ => False
  end.
Proof.
  destruct (queryPromised_rethrows_cause demo_catalog string demo_format
              failing_native 10000 0%nat) as [Hqp Hq].
  destruct (constructor demo_catalog ∅ generic_config) as [e|d] eqn:Hd;
    [by vm_compute in Hd|].
  assert (d = {| config := mergedConfig demo_catalog ∅ generic_config;
                 jdbcProps := None;
                 pool := createPool (mergedPoolOptions ∅ None) |}) as ->
    by (vm_compute in Hd; vm_compute; congruence).
  cbv zeta. split.
  - set (w := initial_world _).
    destruct (Hqp "SELECT 1" None OptionsUndefined w 0%nat
                (snd (pool_acquire failing_native 10000 0 w)) syntax_error
                (snd (statements failing_native 0%nat "SELECT 1" None
                        OptionsUndefined
                        (snd (pool_acquire failing_native 10000 0 w)))))
      as [w3 H3]; [by vm_compute|by vm_compute|].
    by rewrite H3.
  - set (w := initial_world _).
    set (w0 := snd (query demo_catalog string demo_format "SELECT 1" [] w)).
    destruct (Hq "SELECT 1" [] w 0%nat
                (snd (pool_acquire failing_native 10000 0 w0)) syntax_error
                (snd (executeStatement failing_native 0%nat "SELECT 1" (Some 0%nat)
                        (snd (pool_acquire failing_native 10000 0 w0)))))
      as [_ H]. 
    apply H; by vm_compute.
Defined.

(** A failure whose cause has no [getMessage] comes out of the awaited
    [query] as the [TypeError] of the [catch] block; and for a cause that
    has a cause of its own, the message that comes out is the one of the
    former, not the one at the end of the chain. *)
Lemma rejection_without_the_root_cause_message :
  match constructor demo_catalog ∅ generic_config with
  | inr d =>
      let w0 := snd (query demo_catalog string demo_format "SELECT 1" []
                       (initial_world d)) in
      state_of 1 (settle (native_failing_with wrapped_error) 10000 0 1 w0)
      = Some (Rejected (TypeError "ex.cause.getMessage is not a function")) ∧
      state_of 1 (settle (native_failing_with chained_error) 10000 0 1 w0)
      = Some (Rejected (Error "could not execute statement")) ∧
      getMessage <$> (root_cause <$> ex_cause chained_error)
      = Some (Some (Some "syntax error"))
  | inl _ => False
  end.
Proof. by vm_compute. Qed.

(** On a healthy native layer, three queries in a row on a pool of one,
    with an evictor run that finds nothing to evict in between, share one
    physical connection, and the connection acquired for a query is
    released at its end. *)
Lemma queryPromised_releases_connection_witness :
  match constructor demo_catalog ∅ single_config with
  | inr d =>
      let w := initial_world d in
      (∃ r w3 evs,
         queryPromised good_native 10000 0 "SELECT 1" None OptionsUndefined w
         = (r, w3) ∧
         trace w3 =
           trace (snd (pool_acquire good_native 10000 0 w)) ++ evs ++
           [PoolRelease 0%nat] ∧
         0%nat ∈ idle (pool (this w3)) ∧ 0%nat ∉ borrowed (pool (this w3))) ∧
      (connections_created
         (trace (run_steps demo_catalog string demo_format good_native 10000 0
                   [AwaitQuery "SELECT 1" []; AwaitQuery "SELECT ?" ["a"];
                    EvictorRun (λ _, false); AwaitQuery "SELECT 1" []] w))
       ≤ 1)%nat
  | inl _ => False
  end.
Proof.
  destruct (queryPromised_releases_connection demo_catalog ∅ string demo_format
              good_native 10000 0%nat) as [Hrel Hseq].
  destruct (constructor demo_catalog ∅ single_config) as [e|d] eqn:Hd;
    [by vm_compute in Hd|].
  cbv zeta. split.
  - apply Hrel.
    assert (d = {| config := mergedConfig demo_catalog ∅ single_config;
                   jdbcProps := None;
                   pool := createPool (mergedPoolOptions ∅ (c_poolOptions single_config)) |})
      as -> by (vm_compute in Hd; vm_compute; congruence).
    by vm_compute.
  - apply (Hseq single_config d); [exact Hd| |done|].
    + assert (d = {| config := mergedConfig demo_catalog ∅ single_config;
                     jdbcProps := None;
                     pool := createPool (mergedPoolOptions ∅ (c_poolOptions single_config)) |})
        as -> by (vm_compute in Hd; vm_compute; congruence).
      done.
    + repeat constructor.
Defined.

(** When the one pooled connection has gone stale between two queries, the
    second query has the pool discard it and open another; and so it is
    when the evictor has removed the idle connection in between, every
    probe answering [true]: two physical connections are created with
    [max = 1]. *)
Lemma sequential_queries_reconnect_after_failed_probe :
  match constructor demo_catalog ∅ single_config with
  | inr d =>
      max (options (pool d)) = 1 ∧
      ¬ (connections_created
           (trace (run_queries demo_catalog string demo_format stale_native
                     10000 1 [("SELECT 1", []); ("SELECT 1", [])]
                     (initial_world d)))
         ≤ 1)%nat ∧
      (∀ tr c t, isValid good_native tr c t = inr true) ∧
      ¬ (connections_created
           (trace (run_steps demo_catalog string demo_format good_native
                     10000 1 [AwaitQuery "SELECT 1" []; EvictorRun (λ _, true);
                              AwaitQuery "SELECT 1" []]
                     (initial_world d)))
         ≤ 1)%nat
  | inl _ => False
  end.
Proof.
  vm_compute. split; [done|]. split; [intros H; lia|].
  split; [done|]. intros H; lia.
Qed.

(** A driver for a type the catalog does not know, given no properties, is
    constructed, and its first query rejects with the [TypeError]. *)
Lemma create_throws_without_properties_witness :
  ∃ d, constructor demo_catalog ∅ uncatalogued_config = inr d ∧
       state_of 1
         (settle good_native 10000 0 1
            (snd (query demo_catalog string demo_format "SELECT 1" []
                    (initial_world d))))
       = Some (Rejected (TypeError "Cannot convert undefined or null to object")).
Proof.
  destruct (create_throws_without_properties demo_catalog ∅ string demo_format
              good_native 10000 0%nat uncatalogued_config)
    as [[d Hd] Hall]; [by vm_compute|by left|by vm_compute|by vm_compute|].
  exists d. split; [exact Hd|].
  destruct (Hall (initial_world d)) as (_ & _ & Hacq).
  { constructor. exact Hd. }
  destruct Hacq as [_ Hq].
  { assert (d = {| config := mergedConfig demo_catalog ∅ uncatalogued_config;
                   jdbcProps := None;
                   pool := createPool (mergedPoolOptions ∅ None) |})
      as -> by (vm_compute in Hd; vm_compute; congruence).
    by vm_compute. }
  apply Hq.
Defined.

(** The end-to-end scenario: [testConnection()] on the generic driver
    executes [SELECT 1] and fulfils with a result set of one row. *)
Lemma testConnection_is_query_SELECT_1_witness :
  match constructor demo_catalog ∅ generic_config with
  | inr d =>
      let w := initial_world d in
      let w0 := snd (testConnection demo_catalog string demo_format w) in
      (∃ v, state_of 1 (settle good_native 10000 0 1 w0) = Some (Fulfilled v) ∧
            result_rows v = [[("1", "1")]]) ∧
      executed_sql (trace (settle good_native 10000 0 1 w0)) = ["SELECT 1"]
  | inl _ => False
  end.
Proof.
  destruct (testConnection_is_query_SELECT_1 demo_catalog string demo_format
              good_native 10000 0%nat) as [_ H].
  destruct (constructor demo_catalog ∅ generic_config) as [e|d] eqn:Hd;
    [by vm_compute in Hd|].
  assert (d = {| config := mergedConfig demo_catalog ∅ generic_config;
                 jdbcProps := None;
                 pool := createPool (mergedPoolOptions ∅ None) |}) as ->
    by (vm_compute in Hd; vm_compute; congruence).
  cbv zeta. set (w := initial_world _).
  destruct (H w 0%nat
              (snd (pool_acquire good_native 10000 0
                      (snd (testConnection demo_catalog string demo_format w))))
              one_row) as (_ & Hv & Hx);
    [done|by vm_compute|done|done|done|done|].
  split; [exact Hv|exact Hx].
Defined.

(** C5: a driver whose catalog entry resolves [prepareConnectionQueries()]
    to one statement runs a query without it: [query] passes the resolved
    array as [options], [queryPromised] reads
    [options.prepareConnectionQueries], which an array does not have, and
    the only statement executed is the query itself. *)
Theorem query_skips_prepareConnectionQueries :
  match constructor demo_catalog ∅ generic_config with
  | inr d =>
      let w := initial_world d in
      fst (prepareConnectionQueries demo_catalog w)
      = inr ["SET time_zone = '+00:00'"] ∧
      executed_sql
        (trace (run_query demo_catalog string demo_format good_native 10000 0
                  "SELECT 1" [] w))
      = ["SELECT 1"]
  | inl _ => False
  end.
Proof. by vm_compute. Qed.

(** ** The further properties on the scenarios *)

(** The generic driver's properties object holds the one catalog entry. *)
Lemma getJdbcProperties_holds_the_entries_witness :
  match constructor demo_catalog ∅ generic_config with
  | inr d =>
      ∃ p, getJdbcProperties (initial_world d) = (inr p, initial_world d) ∧
           p !! "user" = Some "cube" ∧ size p = 1%nat
  | inl _ => False
  end.
Proof.
  destruct (constructor demo_catalog ∅ generic_config) as [e|d] eqn:Hd;
    [by vm_compute in Hd|].
  assert (d = {| config := mergedConfig demo_catalog ∅ generic_config;
                 jdbcProps := None;
                 pool := createPool (mergedPoolOptions ∅ None) |}) as ->
    by (vm_compute in Hd; vm_compute; congruence).
  set (w := initial_world _).
  destruct (getJdbcProperties_holds_the_entries w
              [("user", "cube")]) as (p & Hp & Hlook & Hsize);
    [by vm_compute| |].
  { simpl. apply NoDup_singleton. }
  exists p. split; [exact Hp|]. split; [|exact Hsize].
  apply Hlook. by left.
Defined.

(** After a query on the generic driver, the one connection was opened
    with the configured url and properties. *)
Lemma connections_use_the_configuration_witness :
  match constructor demo_catalog ∅ generic_config with
  | inr d =>
      configured (mergedConfig demo_catalog ∅ generic_config)
        (settle good_native 10000 0 1
           (snd (query demo_catalog string demo_format "SELECT 1" []
                   (initial_world d))))
  | inl _ => False
  end.
Proof.
  destruct (constructor demo_catalog ∅ generic_config) as [e|d] eqn:Hd;
    [by vm_compute in Hd|].
  apply (connections_use_the_configuration demo_catalog ∅ string demo_format
           good_native 10000 0%nat).
  apply reach_settle, reach_query, reach_new, Hd.
Defined.

(** After a query that failed, the connection is back in the pool. *)
Lemma no_connection_stays_on_loan_witness :
  match constructor demo_catalog ∅ generic_config with
  | inr d =>
      borrowed (pool (this
        (settle failing_native 10000 0 1
           (snd (query demo_catalog string demo_format "SELECT 1" []
                   (initial_world d)))))) = []
  | inl _ => False
  end.
Proof.
  destruct (constructor demo_catalog ∅ generic_config) as [e|d] eqn:Hd;
    [by vm_compute in Hd|].
  apply (no_connection_stays_on_loan demo_catalog ∅ string demo_format
           failing_native 10000 0%nat generic_config).
  apply reach_settle, reach_query, reach_new, Hd.
Defined.

(** Of three preparatory statements the second is refused: the block
    rejects with its error, and neither the third nor the query reaches
    [executeQuery]. *)
Lemma statements_run_in_order_witness :
  match constructor demo_catalog ∅ generic_config with
  | inr d =>
      let w := snd (pool_acquire picky_native 10000 0 (initial_world d)) in
      let r := statements picky_native 0%nat "SELECT 1" None
                 (OptionsObject (Some ["SET time_zone = '+00:00'";
                                       "SET mode = 'none'"; "SET names utf8"]))
                 w in
      fst r = inl syntax_error ∧
      executed_sql (trace (snd r))
      = ["SET time_zone = '+00:00'"; "SET mode = 'none'"]
  | inl _ => False
  end.
Proof.
  destruct (constructor demo_catalog ∅ generic_config) as [e|d] eqn:Hd;
    [by vm_compute in Hd|].
  assert (d = {| config := mergedConfig demo_catalog ∅ generic_config;
                 jdbcProps := None;
                 pool := createPool (mergedPoolOptions ∅ None) |}) as ->
    by (vm_compute in Hd; vm_compute; congruence).
  cbv zeta. set (w := snd (pool_acquire _ _ _ _)).
  destruct (statements_run_in_order picky_native 0%nat "SELECT 1" None
              (OptionsObject (Some ["SET time_zone = '+00:00'";
                                    "SET mode = 'none'"; "SET names utf8"])) w)
    as (_ & Hfail & _).
  rewrite (Hfail ["SET time_zone = '+00:00'"] "SET mode = 'none'"
             ["SET names utf8"]
             (snd (executeStatement picky_native 0%nat
                     "SET time_zone = '+00:00'" None w))
             syntax_error
             (snd (executeStatement picky_native 0%nat "SET mode = 'none'" None
                     (snd (executeStatement picky_native 0%nat
                             "SET time_zone = '+00:00'" None w))))).
  - by vm_compute.
  - done.
  - apply (succeed_cons picky_native 0%nat _ _ (RawResultSet one_row) w
             (snd (executeStatement picky_native 0%nat
                     "SET time_zone = '+00:00'" None w)));
      [by vm_compute|apply succeed_nil].
  - by vm_compute.
Defined.

(** Running the first of two queries leaves the handle of the second
    unbound. *)
Lemma queryPromised_binds_only_its_handle_witness :
  match constructor demo_catalog ∅ generic_config with
  | inr d =>
      let w := {| this := d; cancelObjs := [None; None]; promises := [];
                  trace := [] |} in
      cancelObjs (snd (queryPromised good_native 10000 0 "SELECT 1" (Some 0%nat)
                         (OptionsArray []) w)) !! 1%nat = Some None
  | inl _ => False
  end.
Proof.
  destruct (constructor demo_catalog ∅ generic_config) as [e|d] eqn:Hd;
    [by vm_compute in Hd|].
  cbv zeta.
  by rewrite (queryPromised_binds_only_its_handle good_native 10000 0%nat
                "SELECT 1" (Some 0%nat) (OptionsArray []) _ 1%nat).
Defined.

(** On the uncatalogued driver [acquire] rejects, and [queryPromised]
    rejects with the same error without having executed anything. *)
Lemma queryPromised_without_connection_witness :
  match constructor demo_catalog ∅ uncatalogued_config with
  | inr d =>
      let w := initial_world d in
      fst (queryPromised good_native 10000 0 "SELECT 1" None OptionsUndefined w)
      = inl (TypeError "Cannot convert undefined or null to object") ∧
      executed_sql
        (trace (snd (queryPromised good_native 10000 0 "SELECT 1" None
                       OptionsUndefined w))) = []
  | inl _ => False
  end.
Proof.
  destruct (constructor demo_catalog ∅ uncatalogued_config) as [e|d] eqn:Hd;
    [by vm_compute in Hd|].
  assert (d = {| config := mergedConfig demo_catalog ∅ uncatalogued_config;
                 jdbcProps := None;
                 pool := createPool (mergedPoolOptions ∅ None) |}) as ->
    by (vm_compute in Hd; vm_compute; congruence).
  cbv zeta. set (w := initial_world _).
  destruct (queryPromised_without_connection string demo_format good_native
              10000 0%nat "SELECT 1" None OptionsUndefined w
              (TypeError "Cannot convert undefined or null to object")
              (snd (pool_acquire good_native 10000 0 w)))
    as (Hq & _ & Hx); [by vm_compute|].
  rewrite Hq. split; [done|]. exact Hx.
Defined.

(** [withConnection] hands on a native failure with its cause, where
    [queryPromised] would have made a new error of it, and has released the
    connection. *)
Lemma withConnection_releases_and_propagates_witness :
  match constructor demo_catalog ∅ generic_config with
  | inr d =>
      let r := withConnection failing_native 10000 0
                 (λ c, executeStatement failing_native c "SELECT 1" None)
                 (initial_world d) in
      fst r = inl syntax_error ∧ idle (pool (this (snd r))) = [0%nat]
  | inl _ => False
  end.
Proof.
  destruct (constructor demo_catalog ∅ generic_config) as [e|d] eqn:Hd;
    [by vm_compute in Hd|].
  assert (d = {| config := mergedConfig demo_catalog ∅ generic_config;
                 jdbcProps := None;
                 pool := createPool (mergedPoolOptions ∅ None) |}) as ->
    by (vm_compute in Hd; vm_compute; congruence).
  cbv zeta. set (w := initial_world _).
  pose proof (withConnection_releases_and_propagates failing_native 10000 0%nat
                (λ c, executeStatement failing_native c "SELECT 1" None) w) as H.
  assert (pool_acquire failing_native 10000 0 w
          = (inr 0%nat, snd (pool_acquire failing_native 10000 0 w))) as Hacq
    by (by vm_compute).
  rewrite Hacq in H.
  assert (executeStatement failing_native 0%nat "SELECT 1" None
            (snd (pool_acquire failing_native 10000 0 w))
          = (inl syntax_error,
             snd (executeStatement failing_native 0%nat "SELECT 1" None
                    (snd (pool_acquire failing_native 10000 0 w))))) as Hfn
    by (by vm_compute).
  rewrite Hfn in H. rewrite H.
  - by vm_compute.
  - intros c w'.
    apply (@respects_executeStatement failing_native (same this)
             (same_preorder this) c "SELECT 1" None stmt_blind_this w').
Defined.

(** An empty array in the argument turns the catalog's preparatory
    statements off. *)
Lemma prepareConnectionQueries_resolution_witness :
  match constructor demo_catalog demo_env untyped_config with
  | inr d =>
      prepareConnectionQueries demo_catalog (initial_world d)
      = (inr [], initial_world d)
  | inl _ => False
  end.
Proof.
  destruct (constructor demo_catalog demo_env untyped_config) as [e|d] eqn:Hd;
    [by vm_compute in Hd|].
  assert (d = {| config := mergedConfig demo_catalog demo_env untyped_config;
                 jdbcProps := None;
                 pool := createPool (mergedPoolOptions demo_env None) |}) as ->
    by (vm_compute in Hd; vm_compute; congruence).
  set (w := initial_world _).
  destruct (prepareConnectionQueries_resolution demo_catalog demo_env
              untyped_config w) as (l & Hl & Hgiven & _);
    [done|].
  rewrite Hl. by rewrite (Hgiven [] eq_refl).
Defined.

(** With [dbType] given as [undefined] and [CUBEJS_DB_TYPE=generic], the
    constructor takes its defaults from the generic entry while
    [prepareConnectionQueries()] finds no entry. *)
Lemma prepareConnectionQueries_catalog_entry_witness :
  constructor_dbTypeDescription demo_catalog demo_env untyped_config
  = demo_catalog !! "generic" ∧
  dbTypeDescription demo_catalog
    (dbType (mergedConfig demo_catalog demo_env untyped_config)) = None ∧
  dbTypeDescription demo_catalog
    (dbType (mergedConfig demo_catalog demo_env drivername_config))
  = constructor_dbTypeDescription demo_catalog demo_env drivername_config.
Proof.
  destruct (prepareConnectionQueries_catalog_entry demo_catalog demo_env
              untyped_config) as (_ & _ & Hfalsy).
  destruct (prepareConnectionQueries_catalog_entry demo_catalog demo_env
              drivername_config) as (Habsent & _ & _).
  destruct (Hfalsy None) as [Hlater Hctor]; [done|done|].
  split; [by rewrite Hctor|]. split; [by rewrite Hlater|].
  by apply Habsent.
Defined.

(** [CUBEJS_DB_MAX_POOL=0] gives the default of eight. *)
Lemma defaultMax_is_never_zero_witness :
  defaultMax {[ "CUBEJS_DB_MAX_POOL" := "0" ]} = 8 ∧ defaultMax ∅ = 8.
Proof.
  destruct (defaultMax_is_never_zero demo_catalog {[ "CUBEJS_DB_MAX_POOL" := "0" ]})
    as (_ & _ & Hzero & _).
  destruct (defaultMax_is_never_zero demo_catalog ∅) as (_ & Hunset & _).
  split; [apply (Hzero "0"); [done|by right]|by apply Hunset].
Defined.

(** On the promise [cancel] was assigned to, a call made after the query
    has run calls the native [cancel] of its statement; that call returns
    without using the callback, and the promise of [cancel()] stays
    pending. *)
Lemma cancel_on_inner_promise_ready_witness :
  match constructor demo_catalog ∅ generic_config with
  | inr d =>
      let w0 := snd (query demo_catalog string demo_format "SELECT 1" []
                       (initial_world d)) in
      let w' := settle good_native 10000 0 1 w0 in
      call_cancel good_native 0 w'
      = (inr StaysPending, add_event (Cancel 0%nat) w')
  | inl _ => False
  end.
Proof.
  destruct (constructor demo_catalog ∅ generic_config) as [e|d] eqn:Hd;
    [by vm_compute in Hd|].
  assert (d = {| config := mergedConfig demo_catalog ∅ generic_config;
                 jdbcProps := None;
                 pool := createPool (mergedPoolOptions ∅ None) |}) as ->
    by (vm_compute in Hd; vm_compute; congruence).
  cbv zeta. set (w := initial_world _).
  pose proof (cancel_on_inner_promise_ready demo_catalog string demo_format
                good_native 10000 0%nat "SELECT 1" [] w 0%nat
                (snd (pool_acquire good_native 10000 0
                        (snd (query demo_catalog string demo_format "SELECT 1"
                                [] w))))) as H.
  cbv zeta in H. etrans; [apply H; [by vm_compute|done]|].
  by vm_compute.
Defined.
